(** * DQT JSON tool: graph builder and subtree drag (src/src/App.jsx)

    A shallow embedding of the two stateful parts of [App]:
    - [generateFlow] / [traverse]: JSON value -> nodes, edges, parentMap;
    - [collectDescendants], [onNodeDragStart], [onNodeDrag],
      [onNodeDragStop]: the snapshot based subtree drag.

    Modelling conventions.
    - JavaScript numbers (JSON numbers and coordinates) are an abstract
      type [num] with the operations the source applies to them
      ([JSNumber]); no law of arithmetic is assumed, so every theorem holds
      for IEEE doubles as well as for the integer instance used in the
      examples. Where a statement needs a law, the law is a hypothesis of
      that statement.
    - [idCounter.current] and array indices are natural numbers; [String]
      of them is their decimal numeral.
    - A JavaScript object used as a dictionary ([relations], a snapshot,
      [dragSnapshot.current], [nodeMap]) is a [gmap string _]. All keys are
      node ids, i.e. decimal numerals, so no lookup reaches
      [Object.prototype].
    - React state ([nodes], [edges]) and refs ([idCounter], [parentMap],
      [dragSnapshot]) are the fields of one record [AppState], threaded
      explicitly; [setNodes] is an assignment to the [nodes] field.
    - A JavaScript exception is the [Throw] constructor of [outcome]. *)

From Stdlib Require Import ZArith DecimalNat DecimalString.
From stdpp Require Import gmap strings.

Set Default Proof Using "Type".

(** ** JavaScript numbers *)

Class JSNumber (num : Type) := {
  num_of_nat : nat → num;          (* numeric literals, lengths, indices *)
  num_add : num → num → num;
  num_sub : num → num → num;
  num_mul : num → num → num;
  num_div : num → num → num;
  num_String : num → string;       (* String(n) *)
}.

(** [String(n)] for a counter or an array index. *)
Definition String_nat (n : nat) : string :=
  NilEmpty.string_of_uint (Nat.to_uint n).

Arguments String_nat : simpl never.

(** The inverse reading of an id; [0] for a string that is not a numeral. *)
Definition id_number (s : string) : nat :=
  match NilEmpty.uint_of_string s with
  | Some d => Nat.of_uint d
  | None => 0
  end.

(** ** JSON values, as [JSON.parse] returns them

    An object is the list of its own entries in [Object.entries] order. *)

Unset Elimination Schemes.
Inductive JSON (num : Type) : Type :=
| JNull
| JBool (b : bool)
| JNumber (n : num)
| JString (s : string)
| JArray (items : list (JSON num))
| JObject (fields : list (string * JSON num)).
Set Elimination Schemes.

Arguments JNull {num}.
Arguments JBool {num} b.
Arguments JNumber {num} n.
Arguments JString {num} s.
Arguments JArray {num} items.
Arguments JObject {num} fields.

Section json_induction.
Context {num : Type} (P : JSON num → Prop).
Hypothesis Hnull : P JNull.
Hypothesis Hbool : ∀ b, P (JBool b).
Hypothesis Hnumber : ∀ n, P (JNumber n).
Hypothesis Hstring : ∀ s, P (JString s).
Hypothesis Harray : ∀ items, Forall P items → P (JArray items).
Hypothesis Hobject : ∀ fields, Forall (λ kv, P kv.2) fields → P (JObject fields).

Fixpoint JSON_nested_ind (v : JSON num) : P v :=
  match v with
  | JNull => Hnull
  | JBool b => Hbool b
  | JNumber n => Hnumber n
  | JString s => Hstring s
  | JArray items =>
      Harray items
        ((fix all (l : list (JSON num)) : Forall P l :=
            match l with
            | [] => Forall_nil_2 P
            | e :: l' => Forall_cons_2 P e l' (JSON_nested_ind e) (all l')
            end) items)
  | JObject fields =>
      Hobject fields
        ((fix all (l : list (string * JSON num)) : Forall (λ kv, P kv.2) l :=
            match l with
            | [] => Forall_nil_2 _
            | kv :: l' =>
                Forall_cons_2 (λ kv, P kv.2) kv l' (JSON_nested_ind kv.2) (all l')
            end) fields)
  end.
End json_induction.

(** ** The outcome of a handler: normal completion or an exception *)

Inductive js_error := TypeError.

Inductive outcome (A : Type) : Type :=
| Ok (a : A)
| Throw (e : js_error).

Arguments Ok {A} a.
Arguments Throw {A} e.

Definition bind {A B} (m : outcome A) (k : A → outcome B) : outcome B :=
  match m with
  | Ok a => k a
  | Throw e => Throw e
  end.

Section DQT.
Context {num : Type} {Num : JSNumber num}.

Local Abbreviation JSON := (JSON num).

(** *** Language primitives used by the source *)

Definition typeof (v : JSON) : string :=
  match v with
  | JNull | JArray _ | JObject _ => "object"
  | JBool _ => "boolean"
  | JNumber _ => "number"
  | JString _ => "string"
  end.

Definition Array_isArray (v : JSON) : bool :=
  match v with JArray _ => true | _ => false end.

Definition is_null (v : JSON) : bool :=
  match v with JNull => true | _ => false end.

Fixpoint join_comma (l : list string) : string :=
  match l with
  | [] => ""
  | [s] => s
  | s :: rest => s +:+ "," +:+ join_comma rest
  end.

(** [String(v)]. The source applies it to primitives only; the container
    cases are JavaScript's ([Array.prototype.join], "[object Object]"). *)
Fixpoint String_ (v : JSON) : string :=
  match v with
  | JNull => "null"
  | JBool true => "true"
  | JBool false => "false"
  | JNumber n => num_String n
  | JString s => s
  | JArray items =>
      join_comma (map (λ e, match e with JNull => "" | _ => String_ e end) items)
  | JObject _ => "[object Object]"
  end.

(** [Object.entries(v)] for the values the source passes to it. *)
Definition Object_entries (v : JSON) : list (string * JSON) :=
  match v with
  | JArray items => imap (λ i e, (String_nat i, e)) items
  | JObject fields => fields
  | _ => []
  end.

(** [entries.forEach(([key, val], i) => ...)] over a threaded state. *)
Fixpoint forEach {A St : Type} (f : A → nat → St → St) (l : list A) (i : nat)
    (s : St) : St :=
  match l with
  | [] => s
  | a :: rest => forEach f rest (S i) (f a i s)
  end.

(** *** Graph data *)

Record Position := { x : num; y : num }.

(** The two inline [style] literals of the source. *)
Inductive NodeStyle := ValueStyle | EntryStyle.

Record GraphNode := {
  id : string;
  label : string;
  position : Position;
  draggable : bool;
  style : NodeStyle;
}.

Record GraphEdge := {
  edge_id : string;
  source : string;
  target : string;
}.

(** The mutable cells [traverse] writes: [idCounter.current] and the
    locals [newNodes], [newEdges], [relations] of [generateFlow]. *)
Record Builder := {
  counter : nat;
  newNodes : list GraphNode;
  newEdges : list GraphEdge;
  relations : gmap string (list string);
}.

Definition nextId (b : Builder) : string * Builder :=
  (String_nat (counter b),
   {| counter := S (counter b); newNodes := newNodes b;
      newEdges := newEdges b; relations := relations b |}).

Definition push_node (n : GraphNode) (b : Builder) : Builder :=
  {| counter := counter b; newNodes := newNodes b ++ [n];
     newEdges := newEdges b; relations := relations b |}.

Definition push_edge (e : GraphEdge) (b : Builder) : Builder :=
  {| counter := counter b; newNodes := newNodes b;
     newEdges := newEdges b ++ [e]; relations := relations b |}.

(** [relations[p] = relations[p] || []; relations[p].push(c)] *)
Definition push_relation (p c : string) (b : Builder) : Builder :=
  {| counter := counter b; newNodes := newNodes b; newEdges := newEdges b;
     relations := <[p := default [] (relations b !! p) ++ [c]]> (relations b) |}.

Definition mk_edge (s t : string) : GraphEdge :=
  {| edge_id := "e" +:+ s +:+ "-" +:+ t; source := s; target := t |}.

Definition spacing : num := num_of_nat 220.

(** [const label = ...] of [traverse]. *)
Definition node_label (node : JSON) : string :=
  if String.eqb (typeof node) "object"
  then (if Array_isArray node then "Array" else "Object")
  else String_ node.

(** [const childLabel = ...] of the [forEach] callback. *)
Definition childLabel (key : string) (val : JSON) : string :=
  if String.eqb (typeof val) "object" then key
  else key +:+ ": " +:+ String_ val.

(** The body of the [forEach] callback of [traverse]; [recurse] is
    [traverse val]. *)
Definition visit_entry
    (recurse : num → num → option string → Builder → Builder)
    (depth yy startX : num) (currentId key : string) (val : JSON)
    (i : nat) (b : Builder) : Builder :=
  let childX := num_add startX (num_mul (num_of_nat i) spacing) in
  let '(childId, b) := nextId b in
  let b := push_node {| id := childId; label := childLabel key val;
                        position := {| x := childX; y := num_add yy (num_of_nat 120) |};
                        draggable := true; style := EntryStyle |} b in
  let b := push_edge (mk_edge currentId childId) b in
  let b := push_relation currentId childId b in
  if String.eqb (typeof val) "object" && negb (is_null val)
  then recurse (num_add depth (num_of_nat 2)) childX (Some childId) b
  else b.

(** The part of [traverse] before the children: the value's own node and
    the link to [parentId]. Returns [currentId] and [y] with the state. *)
Definition visit_self (node : JSON) (depth centerX : num)
    (parentId : option string) (b : Builder) : string * num * Builder :=
  let '(currentId, b) := nextId b in
  let yy := num_mul depth (num_of_nat 120) in
  let b := push_node {| id := currentId; label := node_label node;
                        position := {| x := centerX; y := yy |};
                        draggable := true; style := ValueStyle |} b in
  let b :=
    match parentId with
    | Some p =>
        if negb (String.eqb p "")         (* if (parentId) *)
        then push_relation p currentId (push_edge (mk_edge p currentId) b)
        else b
    | None => b
    end in
  (currentId, yy, b).

Definition startX_of (centerX : num) (childCount : nat) : num :=
  let totalWidth := num_mul (num_of_nat childCount) spacing in
  num_add (num_sub centerX (num_div totalWidth (num_of_nat 2)))
          (num_div spacing (num_of_nat 2)).

Fixpoint traverse (node : JSON) (depth centerX : num)
    (parentId : option string) (b : Builder) {struct node} : Builder :=
  let '(currentId, yy, b) := visit_self node depth centerX parentId b in
  match node with
  | JArray items =>
      let startX := startX_of centerX (length items) in
      (fix each (l : list JSON) (i : nat) (b : Builder) : Builder :=
         match l with
         | [] => b
         | val :: rest =>
             each rest (S i)
               (visit_entry (traverse val) depth yy startX currentId
                  (String_nat i) val i b)
         end) items 0 b
  | JObject fields =>
      let startX := startX_of centerX (length fields) in
      (fix each (l : list (string * JSON)) (i : nat) (b : Builder) : Builder :=
         match l with
         | [] => b
         | kv :: rest =>
             each rest (S i)
               (visit_entry (traverse kv.2) depth yy startX currentId
                  kv.1 kv.2 i b)
         end) fields 0 b
  | _ => b
  end.

(** *** Application state *)

Record AppState := {
  idCounter : nat;
  nodes : list GraphNode;
  edges : list GraphEdge;
  parentMap : gmap string (list string);
  dragSnapshot : gmap string (gmap string Position);
}.

(** [idCounter.current = 1] and the three fresh locals start the build;
    nothing of the previous graph is read. [setNodes], [setEdges] and the
    assignment to [parentMap.current] commit the result. *)
Definition generateFlow (obj : JSON) (st : AppState) : AppState :=
  let b := traverse obj (num_of_nat 0) (num_of_nat 0) None
             {| counter := 1; newNodes := []; newEdges := []; relations := ∅ |} in
  {| idCounter := counter b;
     nodes := newNodes b;
     edges := newEdges b;
     parentMap := relations b;
     dragSnapshot := dragSnapshot st |}.

(** The graph part of the [useEffect] body. [JSON.parse] is the external
    parser: the effect sees an empty input, a parse that throws, or a
    parsed value. (The text fields [formattedJson] and [error] are not
    modelled.) *)
Inductive Mode := format | visualize.

Inductive Input :=
| EmptyInput                 (* !jsonInput *)
| Unparsable                 (* JSON.parse throws *)
| Parsed (parsed : JSON).

Definition clearFlow (st : AppState) : AppState :=
  {| idCounter := idCounter st; nodes := []; edges := []; parentMap := ∅;
     dragSnapshot := dragSnapshot st |}.

Definition useEffect_body (input : Input) (mode : Mode) (st : AppState) : AppState :=
  match input with
  | EmptyInput => clearFlow st
  | Unparsable => clearFlow st
  | Parsed parsed =>
      match mode with
      | visualize => generateFlow parsed st
      | format => st
      end
  end.

(** *** Drag session *)

(** The [while (stack.length)] loop of [collectDescendants]; [None] when
    [fuel] iterations were not enough. *)
Fixpoint collect_loop (fuel : nat) (pm : gmap string (list string))
    (stack collected : list string) : option (list string) :=
  match stack with
  | [] => Some collected
  | child :: rest =>
      match fuel with
      | 0 => None
      | S fuel' =>
          let collected := collected ++ [child] in
          let stack :=
            match pm !! child with
            | Some children =>
                if negb (length children =? 0) then rest ++ children else rest
            | None => rest
            end in
          collect_loop fuel' pm stack collected
      end
  end.

Definition collectDescendants (fuel : nat) (pm : gmap string (list string))
    (parentId : string) : option (list string) :=
  let stack := match pm !! parentId with Some l => l | None => [] end in
  collect_loop fuel pm stack [].

(** [nodes.forEach((n) => { nodeMap[n.id] = n.position; })] *)
Definition nodeMap_of (nds : list GraphNode) : gmap string Position :=
  foldl (λ m n, <[id n := position n]> m) ∅ nds.

(** The body of the [for (const d of descendants)] loop. *)
Definition record_descendant (node : GraphNode) (nodeMap : gmap string Position)
    (snapshot : gmap string Position) (d : string) : gmap string Position :=
  match nodeMap !! d with
  | Some p => <[d := {| x := x p; y := y p |}]> snapshot
  | None =>
      (* if missing in nodes for some reason, set from node object *)
      <[d := {| x := x (position node);
                y := num_add (y (position node)) (num_of_nat 40) |}]> snapshot
  end.

(** The snapshot [onNodeDragStart] builds for [node] and [descendants]. *)
Definition take_snapshot (node : GraphNode) (nodeMap : gmap string Position)
    (descendants : list string) : gmap string Position :=
  foldl (record_descendant node nodeMap)
    {[ id node := {| x := x (position node); y := y (position node) |} ]}
    descendants.

(** No statement of [onNodeDragStart] can throw; [None] is "the loop of
    [collectDescendants] did not finish within [fuel]". *)
Definition onNodeDragStart (fuel : nat) (node : GraphNode) (st : AppState)
    : option AppState :=
  let nodeId := id node in
  match collectDescendants fuel (parentMap st) nodeId with
  | None => None
  | Some descendants =>
      let snapshot := take_snapshot node (nodeMap_of (nodes st)) descendants in
      Some {| idCounter := idCounter st; nodes := nodes st; edges := edges st;
              parentMap := parentMap st;
              dragSnapshot := <[nodeId := snapshot]> (dragSnapshot st) |}
  end.

(** The callback of [nds.map] in [onNodeDrag]. *)
Definition move_node (snapshot : gmap string Position) (dx dy : num)
    (n : GraphNode) : GraphNode :=
  match snapshot !! id n with
  | Some p =>
      {| id := id n; label := label n;
         position := {| x := num_add (x p) dx; y := num_add (y p) dy |};
         draggable := draggable n; style := style n |}
  | None => n
  end.

Definition onNodeDrag (node : GraphNode) (st : AppState) : outcome AppState :=
  let nodeId := id node in
  match dragSnapshot st !! nodeId with
  | None => Ok st                                   (* if (!snapshot) return *)
  | Some snapshot =>
      match snapshot !! nodeId with
      | None => Throw TypeError                     (* startPos.x of undefined *)
      | Some startPos =>
          let dx := num_sub (x (position node)) (x startPos) in
          let dy := num_sub (y (position node)) (y startPos) in
          let descendants :=
            filter (λ k, k ≠ nodeId) (map_to_list snapshot).*1 in
          if length descendants =? 0 then Ok st     (* no children *)
          else
            Ok {| idCounter := idCounter st;
                  nodes := move_node snapshot dx dy <$> nodes st;
                  edges := edges st; parentMap := parentMap st;
                  dragSnapshot := dragSnapshot st |}
      end
  end.

Definition onNodeDragStop (node : GraphNode) (st : AppState) : AppState :=
  {| idCounter := idCounter st; nodes := nodes st; edges := edges st;
     parentMap := parentMap st;
     dragSnapshot := delete (id node) (dragSnapshot st) |}.

(** A run of [onNodeDrag] events, in the order raised. *)
Fixpoint dragMoves (events : list GraphNode) (st : AppState) : outcome AppState :=
  match events with
  | [] => Ok st
  | node :: rest => bind (onNodeDrag node st) (dragMoves rest)
  end.

(** ** Vocabulary of the properties *)

(** [id2] is listed under [id1] in a relation index. *)
Definition in_index (rel : gmap string (list string)) (id1 id2 : string) : Prop :=
  ∃ children, rel !! id1 = Some children ∧ id2 ∈ children.

Definition has_edge (es : list GraphEdge) (id1 id2 : string) : Prop :=
  ∃ e, e ∈ es ∧ source e = id1 ∧ target e = id2.

Definition index_agrees (b : Builder) : Prop :=
  ∀ id1 id2, in_index (relations b) id1 id2 ↔ has_edge (newEdges b) id1 id2.

Definition is_container (v : JSON) : bool :=
  match v with JArray _ | JObject _ => true | _ => false end.

(** The number of entries across every container met by the traversal. *)
Fixpoint entries_encountered (v : JSON) : nat :=
  match v with
  | JArray items => length items + sum_list_with entries_encountered items
  | JObject fields =>
      length fields + sum_list_with (λ kv, entries_encountered kv.2) fields
  | _ => 0
  end.

(** The number of entries, across the traversal, whose value is itself a
    container: each gets a node of its own below its key node. *)
Fixpoint nested_containers (v : JSON) : nat :=
  match v with
  | JArray items =>
      sum_list_with (λ e, (if is_container e then 1 else 0) + nested_containers e) items
  | JObject fields =>
      sum_list_with
        (λ kv, (if is_container kv.2 then 1 else 0) + nested_containers kv.2) fields
  | _ => 0
  end.

(** Every recorded child was allocated after its parent and before
    [bound]. *)
Definition index_increasing (bound : nat) (rel : gmap string (list string)) : Prop :=
  ∀ p c, in_index rel p c → id_number p < id_number c ∧ id_number c < bound.

Definition builder_increasing (b : Builder) : Prop :=
  index_increasing (counter b) (relations b).

Definition index_ranked (rk : string → nat) (rel : gmap string (list string)) : Prop :=
  ∀ p c, in_index rel p c → rk c < rk p.

(** The relation index has no cycle. *)
Definition index_acyclic (rel : gmap string (list string)) : Prop :=
  ∃ rk, index_ranked rk rel.

(** Iterations the loop spends on [s] and everything below it, for an id
    of rank at most [n]. *)
Fixpoint subtree_weight (n : nat) (pm : gmap string (list string)) (s : string) : nat :=
  match n with
  | 0 => 1
  | S n' => 1 + sum_list_with (subtree_weight n' pm) (default [] (pm !! s))
  end.

(** What [onNodeDragStart] records for a descendant [d]. *)
Definition snapshot_entry (node : GraphNode) (nodeMap : gmap string Position)
    (d : string) : Position :=
  match nodeMap !! d with
  | Some p => {| x := x p; y := y p |}
  | None => {| x := x (position node);
               y := num_add (y (position node)) (num_of_nat 40) |}
  end.

(** Every stored snapshot holds the position of its own root. *)
Definition wf_store (ds : gmap string (gmap string Position)) : Prop :=
  ∀ r snapshot, ds !! r = Some snapshot → is_Some (snapshot !! r).

(** [Object.keys(snapshot).filter((id) => id !== nodeId)] *)
Definition other_keys (snapshot : gmap string Position) (nodeId : string) : list string :=
  filter (λ k, k ≠ nodeId) (map_to_list snapshot).*1.

(** Every id held by a stored snapshot is the id of a live node. *)
Definition snapshot_ids_live (st : AppState) : Prop :=
  ∀ r snapshot d,
    dragSnapshot st !! r = Some snapshot → is_Some (snapshot !! d) →
    d ∈ id <$> nodes st.

(** *** Runs of the application *)

(** The state of a freshly mounted [App]. *)
Definition mount : AppState :=
  {| idCounter := 1; nodes := []; edges := []; parentMap := ∅; dragSnapshot := ∅ |}.

(** What can happen to the state: the effect runs, the renderer replaces
    the live nodes through [onNodesChange] (moves, removals), or one of the
    three drag handlers is called. *)
Inductive Event :=
| Effect (input : Input) (mode : Mode)
| NodesChange (nds : list GraphNode)
| DragStart (node : GraphNode)
| Drag (node : GraphNode)
| DragStop (node : GraphNode).

Inductive step : AppState → Event → AppState → Prop :=
| step_effect input mode st :
    step st (Effect input mode) (useEffect_body input mode st)
| step_nodes nds st :
    step st (NodesChange nds)
      {| idCounter := idCounter st; nodes := nds; edges := edges st;
         parentMap := parentMap st; dragSnapshot := dragSnapshot st |}
| step_start fuel node st st' :
    onNodeDragStart fuel node st = Some st' → step st (DragStart node) st'
| step_drag node st st' :
    onNodeDrag node st = Ok st' → step st (Drag node) st'
| step_stop node st :
    step st (DragStop node) (onNodeDragStop node st).

Inductive reachable : AppState → Prop :=
| reachable_mount : reachable mount
| reachable_step st ev st' : reachable st → step st ev st' → reachable st'.



(** *** Shape of a build in progress *)

(** A parent id [traverse] may be called with: none before the first node
    exists, otherwise an id allocated earlier. *)
Definition parent_allocated (parentId : option string) (b : Builder) : Prop :=
  match parentId with
  | None => newNodes b = []
  | Some p => ∃ k, p = String_nat k ∧ 1 ≤ k < counter b
  end.

(** The nodes carry the ids 1, 2, ... in creation order; every node but
    the first is the target of the edge pushed with it; an edge runs from
    an earlier id to a later one; and the relation index lists, per
    source and in creation order, the targets of the edges. *)
Definition well_built (b : Builder) : Prop :=
  1 ≤ counter b
  ∧ id <$> newNodes b = String_nat <$> seq 1 (counter b - 1)
  ∧ target <$> newEdges b = drop 1 (id <$> newNodes b)
  ∧ (∀ e, e ∈ newEdges b →
       e = mk_edge (source e) (target e)
       ∧ ∃ k, source e = String_nat k ∧ 1 ≤ k < id_number (target e))
  ∧ (∀ p, default [] (relations b !! p)
          = target <$> filter (λ e, source e = p) (newEdges b)).

(** The index is a forest: acyclic, one parent per child, no child listed
    twice. *)
Definition index_forest (pm : gmap string (list string)) : Prop :=
  index_acyclic pm
  ∧ (∀ p p' c, in_index pm p c → in_index pm p' c → p = p')
  ∧ (∀ p l, pm !! p = Some l → NoDup l).

(** Loop invariant of [collectDescendants] on a forest: nothing was seen
    twice, and nothing below a queued id was seen yet. *)
Definition bfs_fresh (pm : gmap string (list string))
    (stack collected : list string) : Prop :=
  NoDup (collected ++ stack)
  ∧ ∀ s d, s ∈ stack → tc (in_index pm) s d → d ∉ collected ++ stack.

(** Two nodes that differ in their position at most. *)
Definition same_but_position (n n' : GraphNode) : Prop :=
  id n' = id n ∧ label n' = label n ∧ draggable n' = draggable n
  ∧ style n' = style n.

(** No [null] anywhere in the value. *)
Fixpoint null_free (v : JSON) : bool :=
  match v with
  | JNull => false
  | JArray items => forallb null_free items
  | JObject fields => forallb (λ kv, null_free kv.2) fields
  | _ => true
  end.

(** The label of a value's own node and of an entry node, for values other
    than [null]. *)
Definition value_label (v : JSON) : string :=
  match v with
  | JArray _ => "Array"
  | JObject _ => "Object"
  | _ => String_ v
  end.

Definition entry_label (key : string) (val : JSON) : string :=
  if is_container val then key else key +:+ ": " +:+ String_ val.

(** The labels of a value in pre-order: the value, then each entry
    followed, when its value is a container, by the labels of that
    container. *)
Fixpoint labels_of (v : JSON) : list string :=
  value_label v ::
  match v with
  | JArray items =>
      (fix each (l : list JSON) (i : nat) : list string :=
         match l with
         | [] => []
         | val :: rest =>
             (entry_label (String_nat i) val
                :: (if is_container val then labels_of val else []))
             ++ each rest (S i)
         end) items 0
  | JObject fields =>
      (fix each (l : list (string * JSON)) : list string :=
         match l with
         | [] => []
         | kv :: rest =>
             (entry_label kv.1 kv.2
                :: (if is_container kv.2 then labels_of kv.2 else []))
             ++ each rest
         end) fields
  | _ => []
  end.

(** *** The nodes of a build as a function of the value *)

(** What a [forEach] emits when its callback appends [w a i next] for the
    entry [a] at index [i], [next] being the number of the next free id. *)
Fixpoint emit {A B : Type} (w : A → nat → nat → list B) (l : list A)
    (i next : nat) : list B :=
  match l with
  | [] => []
  | a :: rest =>
      w a i next ++ emit w rest (S i) (next + length (w a i next))
  end.

(** The node of a value and the node of an entry, as the two [push]
    calls of [traverse] build them. *)
Definition value_node (node : JSON) (next : nat) (depth centerX : num) : GraphNode :=
  {| id := String_nat next; label := node_label node;
     position := {| x := centerX; y := num_mul depth (num_of_nat 120) |};
     draggable := true; style := ValueStyle |}.

Definition entry_node (key : string) (val : JSON) (i next : nat)
    (depth startX : num) : GraphNode :=
  {| id := String_nat next; label := childLabel key val;
     position :=
       {| x := num_add startX (num_mul (num_of_nat i) spacing);
          y := num_add (num_mul depth (num_of_nat 120)) (num_of_nat 120) |};
     draggable := true; style := EntryStyle |}.

(** The nodes of the subtree of [node] in pre-order, the first of them
    numbered [next]: the value's node at [(centerX, depth * 120)]; then,
    per entry, its node one row below at [startX + i * spacing] and, for
    a container, the nodes of that container two rows below, centred at
    the entry's x. *)
Fixpoint layout (node : JSON) (next : nat) (depth centerX : num) {struct node}
    : list GraphNode :=
  value_node node next depth centerX ::
  match node with
  | JArray items =>
      let startX := startX_of centerX (length items) in
      (fix each (l : list JSON) (i next : nat) : list GraphNode :=
         match l with
         | [] => []
         | val :: rest =>
             let out :=
               entry_node (String_nat i) val i next depth startX
               :: (if is_container val
                   then layout val (S next) (num_add depth (num_of_nat 2))
                          (num_add startX (num_mul (num_of_nat i) spacing))
                   else []) in
             out ++ each rest (S i) (next + length out)
         end) items 0 (S next)
  | JObject fields =>
      let startX := startX_of centerX (length fields) in
      (fix each (l : list (string * JSON)) (i next : nat) : list GraphNode :=
         match l with
         | [] => []
         | kv :: rest =>
             let out :=
               entry_node kv.1 kv.2 i next depth startX
               :: (if is_container kv.2
                   then layout kv.2 (S next) (num_add depth (num_of_nat 2))
                          (num_add startX (num_mul (num_of_nat i) spacing))
                   else []) in
             out ++ each rest (S i) (next + length out)
         end) fields 0 (S next)
  | _ => []
  end.

(** [p + (to - from)], coordinate by coordinate, as [onNodeDrag] computes
    it. *)
Definition shifted (p from to : Position) : Position :=
  {| x := num_add (x p) (num_sub (x to) (x from));
     y := num_add (y p) (num_sub (y to) (y from)) |}.

(** [{ ...n, position: p }] *)
Definition set_position (n : GraphNode) (p : Position) : GraphNode :=
  {| id := id n; label := label n; position := p; draggable := draggable n;
     style := style n |}.

End DQT.

Arguments Position num : clear implicits.
Arguments GraphNode num : clear implicits.
Arguments Builder num : clear implicits.
Arguments AppState num : clear implicits.
Arguments Input num : clear implicits.
Arguments Event num : clear implicits.

(** ** The earlier graph builder (src/unnamed/part_000)

    The first version of [generateFlow]: numeric ids held as numbers,
    a vertical layout, no relation index and no drag handlers. *)

Module Legacy.
Section Legacy.
Context {num : Type} {Num : JSNumber num}.

Local Abbreviation JSON := (JSON num).
Local Abbreviation GraphNode := (GraphNode num).

Record Builder := {
  counter : nat;
  newNodes : list GraphNode;
  newEdges : list GraphEdge;
}.

(** [idCounter.current++] *)
Definition nextId (b : Builder) : nat * Builder :=
  (counter b,
   {| counter := S (counter b); newNodes := newNodes b; newEdges := newEdges b |}).

Definition push_node (n : GraphNode) (b : Builder) : Builder :=
  {| counter := counter b; newNodes := newNodes b ++ [n]; newEdges := newEdges b |}.

Definition push_edge (e : GraphEdge) (b : Builder) : Builder :=
  {| counter := counter b; newNodes := newNodes b; newEdges := newEdges b ++ [e] |}.

(** The edge literal: [`e${s}-${t}`], [String(s)], [String(t)]. *)
Definition mk_edge (s t : nat) : GraphEdge :=
  {| edge_id := "e" +:+ String_nat s +:+ "-" +:+ String_nat t;
     source := String_nat s; target := String_nat t |}.

Definition node_label (obj : JSON) : string :=
  if Array_isArray obj then "Array"
  else if String.eqb (typeof obj) "object" then "Object"
  else String_ obj.

Definition childLabel (key : string) (val : JSON) : string :=
  key +:+ ": " +:+ (if String.eqb (typeof val) "object" then "" else String_ val).

(** The body of the [forEach] callback; [recurse] is [traverse val]. *)
Definition visit_entry
    (recurse : num → option nat → num → Builder → Builder)
    (depth parentY yOffset : num) (currentId : nat) (key : string) (val : JSON)
    (b : Builder) : Builder :=
  let '(childId, b) := nextId b in
  let childY := num_add yOffset (num_mul (num_of_nat childId) (num_of_nat 60)) in
  let b := push_node
             {| id := String_nat childId; label := childLabel key val;
                position :=
                  {| x := num_mul (num_add depth (num_of_nat 1)) (num_of_nat 250);
                     y := num_add parentY childY |};
                draggable := true; style := EntryStyle |} b in
  let b := push_edge (mk_edge currentId childId) b in
  if String.eqb (typeof val) "object" && negb (is_null val)
  then recurse (num_add depth (num_of_nat 2)) (Some childId) (num_add parentY childY) b
  else b.

(** The part of [traverse] before the children. *)
Definition visit_self (obj : JSON) (depth : num) (parentId : option nat)
    (parentY : num) (b : Builder) : nat * num * Builder :=
  let '(currentId, b) := nextId b in
  let yOffset := num_mul (num_of_nat currentId) (num_of_nat 80) in
  let b := push_node
             {| id := String_nat currentId; label := node_label obj;
                position := {| x := num_mul depth (num_of_nat 250);
                               y := num_add parentY yOffset |};
                draggable := true; style := ValueStyle |} b in
  let b :=
    match parentId with
    | Some p =>
        if negb (p =? 0)                  (* if (parentId), a number *)
        then push_edge (mk_edge p currentId) b
        else b
    | None => b
    end in
  (currentId, yOffset, b).

Fixpoint traverse (obj : JSON) (depth : num) (parentId : option nat)
    (parentY : num) (b : Builder) {struct obj} : Builder :=
  let '(currentId, yOffset, b) := visit_self obj depth parentId parentY b in
  match obj with
  | JArray items =>
      (fix each (l : list JSON) (i : nat) (b : Builder) : Builder :=
         match l with
         | [] => b
         | val :: rest =>
             each rest (S i)
               (visit_entry (traverse val) depth parentY yOffset currentId
                  (String_nat i) val b)
         end) items 0 b
  | JObject fields =>
      (fix each (l : list (string * JSON)) (i : nat) (b : Builder) : Builder :=
         match l with
         | [] => b
         | kv :: rest =>
             each rest (S i)
               (visit_entry (traverse kv.2) depth parentY yOffset currentId
                  kv.1 kv.2 b)
         end) fields 0 b
  | _ => b
  end.

Record AppState := {
  idCounter : nat;
  nodes : list GraphNode;
  edges : list GraphEdge;
}.

Definition generateFlow (obj : JSON) (st : AppState) : AppState :=
  let b := traverse obj (num_of_nat 0) None (num_of_nat 0)
             {| counter := 1; newNodes := []; newEdges := [] |} in
  {| idCounter := counter b; nodes := newNodes b; edges := newEdges b |}.

End Legacy.

Arguments Builder num : clear implicits.
Arguments AppState num : clear implicits.
End Legacy.

(** The two builders agree on the counter, the ids and the edges. *)
Definition same_structure {num : Type} (old : Legacy.Builder num) (new : Builder num)
    : Prop :=
  Legacy.counter old = counter new
  ∧ id <$> Legacy.newNodes old = id <$> newNodes new
  ∧ Legacy.newEdges old = newEdges new.

(** A parent id as the old and as the new [traverse] receive it. *)
Definition same_parent (old : option nat) (new : option string) : Prop :=
  match old, new with
  | None, None => True
  | Some k, Some p => 1 ≤ k ∧ p = String_nat k
  | _, _ => False
  end.

(** ** Concrete runs on integer-valued numbers
    On the integers that occur below every operation of the instance
    returns what the JavaScript operation returns (the only division is of
    an even number by 2). *)

#[export] Instance Z_JSNumber : JSNumber Z := {|
  num_of_nat := Z.of_nat;
  num_add := Z.add;
  num_sub := Z.sub;
  num_mul := Z.mul;
  num_div := Z.div;
  num_String := λ z, NilZero.string_of_int (Z.to_int z);
|}.

Definition pos (px py : Z) : Position Z := {| x := px; y := py |}.

Definition initial : AppState Z := mount.

(** [{"a": 1, "b": {"c": 2}}] *)
Definition spec_example : JSON Z :=
  JObject [("a", JNumber 1%Z); ("b", JObject [("c", JNumber 2%Z)])].

Definition built : AppState Z := generateFlow spec_example initial.

(** The node object the renderer hands to a drag handler; the handlers
    read its [id] and [position] only. *)
Definition renderer_node (i : string) (px py : Z) : GraphNode Z :=
  {| id := i; label := ""; position := pos px py; draggable := true;
     style := ValueStyle |}.

Definition with_snapshots (st : AppState Z)
    (ds : gmap string (gmap string (Position Z))) : AppState Z :=
  {| idCounter := idCounter st; nodes := nodes st; edges := edges st;
     parentMap := parentMap st; dragSnapshot := ds |}.

(** The snapshots of the two drags. *)
Definition snapshot_b : gmap string (Position Z) :=
  {[ "4" := pos 110 240; "5" := pos 110 360 ]}.

Definition snapshot_a : gmap string (Position Z) := {[ "2" := pos (-110) 120 ]}.

(** [built] while the nested container under [b] (id 4) is dragged. *)
Definition dragging_b : AppState Z :=
  with_snapshots built {[ "4" := snapshot_b ]}.

(** [built] while the leaf [a: 1] (id 2) is dragged. *)
Definition dragging_a : AppState Z :=
  with_snapshots built {[ "2" := snapshot_a ]}.



(** [dragging_b] after the dragged container was moved by (50, 30). *)
Definition moved_b : AppState Z :=
  {| idCounter := idCounter built;
     nodes :=
       [ {| id := "1"; label := "Object"; position := pos 0 0;
            draggable := true; style := ValueStyle |};
         {| id := "2"; label := "a: 1"; position := pos (-110) 120;
            draggable := true; style := EntryStyle |};
         {| id := "3"; label := "b"; position := pos 110 120;
            draggable := true; style := EntryStyle |};
         {| id := "4"; label := "Object"; position := pos 160 270;
            draggable := true; style := ValueStyle |};
         {| id := "5"; label := "c: 2"; position := pos 160 390;
            draggable := true; style := EntryStyle |} ];
     edges := edges built; parentMap := parentMap built;
     dragSnapshot := {[ "4" := snapshot_b ]} |}.

(** [built] after the renderer removed the node [c: 2] (id 5) from the
    live set; the relation index still names it. *)
Definition without_c : AppState Z :=
  {| idCounter := idCounter built;
     nodes := filter (λ n, id n ≠ "5") (nodes built);
     edges := edges built; parentMap := parentMap built; dragSnapshot := ∅ |}.

(** *** Rows of the layout, on integer coordinates *)

(** The edge from [ns] to [nt] goes down one row of 120; its two ends are
    of the two different kinds of node; and a value node sits straight
    below the entry node it hangs from. *)
Definition one_row_down (ns nt : GraphNode Z) : Prop :=
  y (position nt) = (y (position ns) + 120)%Z
  ∧ style ns ≠ style nt
  ∧ (style nt = ValueStyle → x (position nt) = x (position ns)).

Definition rows_ok (b : Builder Z) : Prop :=
  ∀ e, e ∈ newEdges b →
    ∃ ns nt, ns ∈ newNodes b ∧ nt ∈ newNodes b
             ∧ id ns = source e ∧ id nt = target e ∧ one_row_down ns nt.

(** The entry node a nested value is hung from: one row above the row of
    [depth], at [centerX]. *)
Definition key_node_above (parentId : option string) (depth centerX : Z)
    (b : Builder Z) : Prop :=
  match parentId with
  | None => True
  | Some p =>
      ∃ np, np ∈ newNodes b ∧ id np = p ∧ style np = EntryStyle
            ∧ x (position np) = centerX
            ∧ (y (position np) + 120 = depth * 120)%Z
  end.

(** * Verification *)

Section DQT_theory.
Context {num : Type} {Num : JSNumber num}.

Local Abbreviation JSON := (JSON num).
Local Abbreviation Position := (Position num).
Local Abbreviation GraphNode := (GraphNode num).
Local Abbreviation Builder := (Builder num).
Local Abbreviation AppState := (AppState num).
Local Abbreviation Input := (Input num).
Local Abbreviation Event := (Event num).

(** ** Structure of the traversal *)

(** Induction on a JSON value through [Object.entries], the way [traverse]
    recurses. *)
Lemma JSON_entries_ind (P : JSON → Prop) :
  (∀ node, (∀ key val, (key, val) ∈ Object_entries node → P val) → P node) →
  ∀ node, P node.
Proof.
  intros step node.
  induction node as [| | | |items IH|fields IH] using JSON_nested_ind;
    apply step; simpl; intros key val Hin; try (by apply elem_of_nil in Hin).
  - apply elem_of_lookup_imap in Hin as (i & e & Heq & Hi).
    injection Heq as -> ->. rewrite Forall_forall in IH. apply IH.
    by eapply list_elem_of_lookup_2.
  - rewrite Forall_forall in IH. by apply (IH (key, val)).
Qed.

Lemma each_array_forEach (f : string → JSON → nat → Builder → Builder) items :
  ∀ i b,
  (fix each (l : list JSON) (i : nat) (b : Builder) : Builder :=
     match l with
     | [] => b
     | val :: rest => each rest (S i) (f (String_nat i) val i b)
     end) items i b
  = forEach (λ kv, f kv.1 kv.2) (imap (λ j e, (String_nat (i + j), e)) items) i b.
Proof.
  induction items as [|e items IH]; intros i b; [done|].
  simpl. rewrite Nat.add_0_r, IH. f_equal.
  apply imap_ext. intros j e' _. simpl. by rewrite Nat.add_succ_r.
Qed.

Lemma each_object_forEach (f : string → JSON → nat → Builder → Builder) fields :
  ∀ i b,
  (fix each (l : list (string * JSON)) (i : nat) (b : Builder) : Builder :=
     match l with
     | [] => b
     | kv :: rest => each rest (S i) (f kv.1 kv.2 i b)
     end) fields i b
  = forEach (λ kv, f kv.1 kv.2) fields i b.
Proof.
  induction fields as [|kv fields IH]; intros i b; [done|].
  simpl. by rewrite IH.
Qed.

(** [traverse] in the shape of the source: the value's own node, then, for
    a non-null object, [Object.entries(node).forEach(...)]. *)
Lemma traverse_unfold (node : JSON) depth centerX parentId (b : Builder) :
  traverse node depth centerX parentId b =
    let '(currentId, yy, b1) := visit_self node depth centerX parentId b in
    if String.eqb (typeof node) "object" && negb (is_null node) then
      let entries := Object_entries node in
      let startX := startX_of centerX (length entries) in
      forEach (λ kv, visit_entry (traverse kv.2) depth yy startX currentId kv.1 kv.2)
        entries 0 b1
    else b1.
Proof.
  destruct node; cbn [traverse];
    (destruct (visit_self _ depth centerX parentId b) as [[currentId yy] b1]);
    try done.
  - rewrite (each_array_forEach (λ key val, visit_entry (traverse val) depth yy
        (startX_of centerX (length items)) currentId key val)).
    simpl. by rewrite length_imap.
  - by rewrite (each_object_forEach (λ key val, visit_entry (traverse val) depth yy
        (startX_of centerX (length fields)) currentId key val)).
Qed.

Lemma forEach_inv {A St : Type} (I : St → Prop) (f : A → nat → St → St) l :
  (∀ a j s, a ∈ l → I s → I (f a j s)) →
  ∀ i s, I s → I (forEach f l i s).
Proof.
  induction l as [|a l IH]; intros step i s Hs; simpl; [done|].
  apply IH.
  - intros a' j' s' Ha'. apply step. by apply list_elem_of_further.
  - apply step; [apply list_elem_of_here|done].
Qed.

Lemma forEach_sum {A St : Type} (m : St → nat) (w : A → nat)
    (f : A → nat → St → St) l :
  (∀ a j s, a ∈ l → m (f a j s) = m s + w a) →
  ∀ i s, m (forEach f l i s) = m s + sum_list_with w l.
Proof.
  induction l as [|a l IH]; intros step i s; simpl; [lia|].
  rewrite IH.
  - rewrite step by apply list_elem_of_here. lia.
  - intros a' j' s' Ha'. apply step. by apply list_elem_of_further.
Qed.

Lemma in_index_push rel p c id1 id2 :
  in_index (<[p := default [] (rel !! p) ++ [c]]> rel) id1 id2 ↔
  in_index rel id1 id2 ∨ (id1 = p ∧ id2 = c).
Proof.
  unfold in_index. destruct (decide (id1 = p)) as [->|Hne].
  - rewrite lookup_insert_eq. split.
    + intros (children & [= <-] & Hin). apply elem_of_app in Hin as [Hin|Hin].
      * left. destruct (rel !! p) as [l|] eqn:Hp; simpl in Hin.
        -- by exists l.
        -- by apply elem_of_nil in Hin.
      * right. by apply list_elem_of_singleton in Hin.
    + intros [(children & Hp & Hin)|[_ ->]]; eexists; (split; [done|]).
      * rewrite Hp. simpl. apply elem_of_app. by left.
      * apply elem_of_app. right. by apply list_elem_of_singleton.
  - rewrite lookup_insert_ne by done. split; [by left|].
    intros [H|[? _]]; done.
Qed.

Lemma has_edge_push es p c id1 id2 :
  has_edge (es ++ [mk_edge p c]) id1 id2 ↔ has_edge es id1 id2 ∨ (id1 = p ∧ id2 = c).
Proof.
  unfold has_edge. split.
  - intros (e & Hin & Hs & Ht). apply elem_of_app in Hin as [Hin|Hin].
    + left. by exists e.
    + right. apply list_elem_of_singleton in Hin. by subst.
  - intros [(e & Hin & Hs & Ht)|[-> ->]].
    + exists e. split; [|done]. apply elem_of_app. by left.
    + exists (mk_edge p c). split; [|done].
      apply elem_of_app. right. by apply list_elem_of_singleton.
Qed.

(** An edge and its relation entry are always pushed together. *)
Lemma index_agrees_link (b : Builder) p c :
  index_agrees b → index_agrees (push_relation p c (push_edge (mk_edge p c) b)).
Proof.
  intros Hb id1 id2. simpl. rewrite in_index_push, has_edge_push.
  by rewrite (Hb id1 id2).
Qed.

Lemma index_agrees_nodes (b : Builder) c (ns : list GraphNode) :
  index_agrees b →
  index_agrees {| counter := c; newNodes := ns; newEdges := newEdges b;
                  relations := relations b |}.
Proof. done. Qed.

Lemma visit_self_index_agrees (node : JSON) depth centerX parentId (b : Builder) :
  index_agrees b → index_agrees (visit_self node depth centerX parentId b).2.
Proof.
  intros Hb. unfold visit_self. simpl.
  destruct parentId as [p|]; [|by apply index_agrees_nodes].
  destruct (negb (String.eqb p "")); [|by apply index_agrees_nodes].
  apply index_agrees_link. by apply index_agrees_nodes.
Qed.

Lemma traverse_index_agrees (node : JSON) :
  ∀ depth centerX parentId (b : Builder),
    index_agrees b → index_agrees (traverse node depth centerX parentId b).
Proof.
  induction node as [node IH] using JSON_entries_ind.
  intros depth centerX parentId b Hb. rewrite traverse_unfold.
  pose proof (visit_self_index_agrees node depth centerX parentId b Hb) as Hself.
  destruct (visit_self node depth centerX parentId b) as [[currentId yy] b1].
  simpl in Hself.
  destruct (String.eqb (typeof node) "object" && negb (is_null node)); [|done].
  cbv zeta. apply forEach_inv; [|done].
  intros [key val] i s Hin Hs. unfold visit_entry. simpl.
  set (s' := push_relation _ _ _).
  assert (index_agrees s') as Hs'.
  { apply index_agrees_link. by apply index_agrees_nodes. }
  destruct (String.eqb (typeof val) "object" && negb (is_null val)); [|done].
  by apply (IH key val Hin).
Qed.

Lemma sum_list_with_entries (h : JSON → nat) items :
  ∀ k, sum_list_with (λ kv : string * JSON, h kv.2)
         (imap (λ j e, (String_nat (k + j), e)) items)
       = sum_list_with h items.
Proof.
  induction items as [|e items IH]; intros k; [done|].
  simpl. f_equal. rewrite <- (IH (S k)). f_equal.
  apply imap_ext. intros j e' _. simpl. by rewrite Nat.add_succ_r.
Qed.

Lemma sum_list_with_array (h : JSON → nat) items :
  sum_list_with (λ kv : string * JSON, h kv.2) (Object_entries (JArray items))
  = sum_list_with h items.
Proof. apply (sum_list_with_entries h items 0). Qed.

Lemma entries_encountered_unfold (v : JSON) :
  entries_encountered v =
    length (Object_entries v)
    + sum_list_with (λ kv, entries_encountered kv.2) (Object_entries v).
Proof.
  destruct v; try done.
  rewrite sum_list_with_array. simpl. by rewrite length_imap.
Qed.

Lemma nested_containers_unfold (v : JSON) :
  nested_containers v =
    sum_list_with
      (λ kv, (if is_container kv.2 then 1 else 0) + nested_containers kv.2)
      (Object_entries v).
Proof.
  destruct v; try done.
  by rewrite (sum_list_with_array
    (λ e, (if is_container e then 1 else 0) + nested_containers e)).
Qed.

Lemma sum_list_with_split {A} (f g : A → nat) (l : list A) :
  sum_list_with (λ a, 1 + f a + g a) l
  = length l + sum_list_with f l + sum_list_with g l.
Proof. induction l as [|a l IH]; simpl; [done|]. simpl in IH. lia. Qed.

Lemma has_entries_container (v : JSON) :
  String.eqb (typeof v) "object" && negb (is_null v) = is_container v.
Proof. by destruct v. Qed.

Lemma visit_self_length (node : JSON) depth centerX parentId (b : Builder) :
  length (newNodes (visit_self node depth centerX parentId b).2)
  = length (newNodes b) + 1.
Proof.
  unfold visit_self. simpl. destruct parentId as [p|]; simpl.
  - destruct (negb (String.eqb p "")); simpl; by rewrite length_app.
  - by rewrite length_app.
Qed.

Lemma traverse_length (node : JSON) :
  ∀ depth centerX parentId (b : Builder),
    length (newNodes (traverse node depth centerX parentId b))
    = length (newNodes b) + 1 + entries_encountered node + nested_containers node.
Proof.
  induction node as [node IH] using JSON_entries_ind.
  intros depth centerX parentId b. rewrite traverse_unfold.
  pose proof (visit_self_length node depth centerX parentId b) as Hself.
  destruct (visit_self node depth centerX parentId b) as [[currentId yy] b1].
  simpl in Hself.
  rewrite entries_encountered_unfold, nested_containers_unfold.
  rewrite has_entries_container. destruct (is_container node) eqn:Hc.
  - cbv zeta.
    rewrite (forEach_sum (λ s, length (newNodes s))
      (λ kv, 1 + entries_encountered kv.2
             + ((if is_container kv.2 then 1 else 0) + nested_containers kv.2))).
    + rewrite Hself.
      rewrite sum_list_with_split. lia.
    + intros [key val] j s Hin. unfold visit_entry. simpl.
      rewrite has_entries_container. destruct (is_container val) eqn:Hv.
      * rewrite (IH key val Hin). simpl. rewrite length_app. simpl. lia.
      * simpl. rewrite length_app. simpl.
        destruct val; try discriminate Hv; simpl; lia.
  - destruct node; try discriminate Hc; simpl; lia.
Qed.

(** ** Ids grow along the relation index *)

Lemma id_number_String_nat n : id_number (String_nat n) = n.
Proof.
  unfold id_number, String_nat. rewrite NilEmpty.usu. apply Unsigned.of_to.
Qed.

Lemma index_increasing_mono bound bound' rel :
  bound ≤ bound' → index_increasing bound rel → index_increasing bound' rel.
Proof. intros Hle Hrel p c Hpc. destruct (Hrel p c Hpc). lia. Qed.

Lemma index_increasing_push bound rel p c :
  id_number p < id_number c → id_number c < bound →
  index_increasing bound rel →
  index_increasing bound (<[p := default [] (rel !! p) ++ [c]]> rel).
Proof.
  intros Hpc Hc Hrel p' c' [Hin|[-> ->]]%in_index_push; [by apply Hrel|done].
Qed.

Lemma visit_self_increasing (node : JSON) depth centerX parentId (b : Builder) :
  builder_increasing b →
  (∀ p, parentId = Some p → id_number p < counter b) →
  let r := visit_self node depth centerX parentId b in
  builder_increasing r.2 ∧ counter r.2 = S (counter b)
  ∧ r.1.1 = String_nat (counter b).
Proof.
  intros Hb Hp. unfold visit_self, builder_increasing. simpl.
  destruct parentId as [p|]; simpl.
  - destruct (negb (String.eqb p "")); simpl; (split; [|done]).
    + apply index_increasing_push.
      * rewrite id_number_String_nat. by apply Hp.
      * rewrite id_number_String_nat. lia.
      * eapply index_increasing_mono; [|exact Hb]. lia.
    + eapply index_increasing_mono; [|exact Hb]. lia.
  - split; [|done]. eapply index_increasing_mono; [|exact Hb]. lia.
Qed.

Lemma traverse_increasing (node : JSON) :
  ∀ depth centerX parentId (b : Builder),
    builder_increasing b →
    (∀ p, parentId = Some p → id_number p < counter b) →
    builder_increasing (traverse node depth centerX parentId b)
    ∧ counter b < counter (traverse node depth centerX parentId b).
Proof.
  induction node as [node IH] using JSON_entries_ind.
  intros depth centerX parentId b Hb Hp. rewrite traverse_unfold.
  destruct (visit_self_increasing node depth centerX parentId b Hb Hp)
    as (Hb1 & Hc1 & Hid).
  destruct (visit_self node depth centerX parentId b) as [[currentId yy] b1].
  simpl in Hb1, Hc1, Hid. subst currentId.
  destruct (String.eqb (typeof node) "object" && negb (is_null node));
    [|split; [done|lia]].
  cbv zeta.
  apply (forEach_inv (λ s, builder_increasing s ∧ counter b < counter s));
    [|split; [done|lia]].
  intros [key val] i s Hin [Hs Hlt]. unfold visit_entry. simpl.
  set (s' := push_relation _ _ _).
  assert (builder_increasing s' ∧ counter s' = S (counter s)) as [Hs' Hc'].
  { split; [|done]. unfold builder_increasing. simpl.
    apply index_increasing_push; rewrite ?id_number_String_nat; [lia..|].
    eapply index_increasing_mono; [|exact Hs]. lia. }
  destruct (String.eqb (typeof val) "object" && negb (is_null val));
    [|split; [done|lia]].
  destruct (IH key val Hin (num_add depth (num_of_nat 2))
              (num_add (startX_of centerX (length (Object_entries node)))
                 (num_mul (num_of_nat i) spacing))
              (Some (String_nat (counter s))) s' Hs') as [Hr Hcr].
  - intros p [= <-]. rewrite id_number_String_nat. lia.
  - split; [done|lia].
Qed.

Lemma index_increasing_acyclic bound rel :
  index_increasing bound rel → index_acyclic rel.
Proof.
  intros Hrel. exists (λ s, bound - id_number s). intros p c Hpc.
  destruct (Hrel p c Hpc). lia.
Qed.

Lemma index_acyclic_empty : index_acyclic ∅.
Proof. exists (λ _, 0). intros p c (l & Hl & _). by rewrite lookup_empty in Hl. Qed.

Lemma children_ranked rk pm s c :
  index_ranked rk pm → c ∈ default [] (pm !! s) → rk c < rk s.
Proof.
  intros Hrk Hc. apply Hrk. destruct (pm !! s) as [l|] eqn:Hs; simpl in Hc.
  - by exists l.
  - by apply elem_of_nil in Hc.
Qed.

Lemma sum_list_with_ext_in {A} (f g : A → nat) (l : list A) :
  (∀ a, a ∈ l → f a = g a) → sum_list_with f l = sum_list_with g l.
Proof.
  induction l as [|a l IH]; intros Hfg; simpl; [done|].
  rewrite (Hfg a) by apply list_elem_of_here.
  rewrite IH; [done|]. intros a' Ha'. apply Hfg. by apply list_elem_of_further.
Qed.

Lemma sum_list_with_app_nat {A} (f : A → nat) (l1 l2 : list A) :
  sum_list_with f (l1 ++ l2) = sum_list_with f l1 + sum_list_with f l2.
Proof. induction l1 as [|a l1 IH]; simpl; [done|]. rewrite IH. lia. Qed.

Lemma subtree_weight_stable rk pm :
  index_ranked rk pm →
  ∀ n s, rk s ≤ n → subtree_weight (S n) pm s = subtree_weight n pm s.
Proof.
  intros Hrk. induction n as [|n IH]; intros s Hs.
  - simpl. destruct (default [] (pm !! s)) as [|c l] eqn:Hl; [done|].
    assert (rk c < rk s); [|lia].
    eapply children_ranked; [done|]. rewrite Hl. apply list_elem_of_here.
  - change (subtree_weight (S (S n)) pm s)
      with (1 + sum_list_with (subtree_weight (S n) pm) (default [] (pm !! s))).
    change (subtree_weight (S n) pm s)
      with (1 + sum_list_with (subtree_weight n pm) (default [] (pm !! s))).
    f_equal. apply sum_list_with_ext_in. intros c Hc. apply IH.
    pose proof (children_ranked rk pm s c Hrk Hc). lia.
Qed.

Lemma subtree_weight_children rk pm n s :
  index_ranked rk pm → rk s ≤ n →
  1 + sum_list_with (subtree_weight n pm) (default [] (pm !! s))
  ≤ subtree_weight n pm s.
Proof.
  intros Hrk Hs. destruct n as [|n].
  - destruct (default [] (pm !! s)) as [|c l] eqn:Hl; [simpl; lia|].
    assert (rk c < rk s); [|lia].
    eapply children_ranked; [done|]. rewrite Hl. apply list_elem_of_here.
  - change (subtree_weight (S n) pm s)
      with (1 + sum_list_with (subtree_weight n pm) (default [] (pm !! s))).
    apply Nat.eq_le_incl. f_equal. apply sum_list_with_ext_in. intros c Hc.
    eapply subtree_weight_stable; [done|].
    pose proof (children_ranked rk pm s c Hrk Hc). lia.
Qed.

(** The queue the loop continues with after taking [child] off [rest]. *)
Lemma collect_loop_step fuel pm child rest collected :
  collect_loop (S fuel) pm (child :: rest) collected
  = collect_loop fuel pm (rest ++ default [] (pm !! child)) (collected ++ [child]).
Proof.
  simpl. destruct (pm !! child) as [[|c l]|]; simpl; by rewrite ?app_nil_r.
Qed.

Lemma collect_loop_terminates rk pm n :
  index_ranked rk pm →
  ∀ fuel stack collected,
    Forall (λ s, rk s ≤ n) stack →
    sum_list_with (subtree_weight n pm) stack ≤ fuel →
    is_Some (collect_loop fuel pm stack collected).
Proof.
  intros Hrk. induction fuel as [|fuel IH]; intros stack collected Hst Hfuel.
  - destruct stack as [|child rest]; [by eexists|].
    simpl in Hfuel. destruct n; simpl in Hfuel; lia.
  - destruct stack as [|child rest]; [by eexists|].
    rewrite collect_loop_step. apply Forall_cons in Hst as [Hchild Hrest].
    apply IH.
    + apply Forall_app. split; [done|]. apply Forall_forall. intros c Hc.
      pose proof (children_ranked rk pm child c Hrk Hc). lia.
    + rewrite sum_list_with_app_nat. simpl in Hfuel.
      pose proof (subtree_weight_children rk pm n child Hrk Hchild). lia.
Qed.

(** More fuel does not change the result of a loop that finished. *)
Lemma collect_loop_fuel_mono pm :
  ∀ fuel fuel' stack collected result,
    collect_loop fuel pm stack collected = Some result → fuel ≤ fuel' →
    collect_loop fuel' pm stack collected = Some result.
Proof.
  induction fuel as [|fuel IH]; intros fuel' stack collected result Hres Hle.
  - destruct stack; [|done]. by destruct fuel'.
  - destruct stack as [|child rest]; [by destruct fuel'|].
    destruct fuel' as [|fuel']; [lia|].
    rewrite collect_loop_step in Hres |- *. apply (IH fuel'); [done|lia].
Qed.

Lemma list_max_rank (rk : string → nat) (l : list string) :
  ∃ n, Forall (λ s, rk s ≤ n) l.
Proof.
  induction l as [|s l [n Hn]]; [by exists 0|].
  exists (rk s `max` n). apply Forall_cons. split; [lia|].
  eapply Forall_impl; [exact Hn|]. simpl. lia.
Qed.

Lemma collectDescendants_terminates pm parentId :
  index_acyclic pm → ∃ fuel, is_Some (collectDescendants fuel pm parentId).
Proof.
  intros [rk Hrk]. unfold collectDescendants.
  set (stack := match pm !! parentId with Some l => l | None => [] end).
  destruct (list_max_rank rk stack) as [n Hn].
  exists (sum_list_with (subtree_weight n pm) stack).
  by eapply collect_loop_terminates.
Qed.

(** The loop collects exactly what the queue reaches through the index. *)
Lemma collect_loop_spec pm :
  ∀ fuel stack collected result,
    collect_loop fuel pm stack collected = Some result →
    ∀ d, d ∈ result ↔
         d ∈ collected ∨ ∃ s, s ∈ stack ∧ rtc (in_index pm) s d.
Proof.
  induction fuel as [|fuel IH]; intros stack collected result Hres d.
  - destruct stack as [|child rest]; [|done]. injection Hres as <-.
    split; [by left|]. intros [H|(s & Hs & _)]; [done|].
    by apply elem_of_nil in Hs.
  - destruct stack as [|child rest].
    { injection Hres as <-. split; [by left|].
      intros [H|(s & Hs & _)]; [done|]. by apply elem_of_nil in Hs. }
    rewrite collect_loop_step in Hres. rewrite (IH _ _ _ Hres d).
    rewrite elem_of_app, list_elem_of_singleton. split.
    + intros [[Hd| ->]|(s & Hs & Hsd)].
      * by left.
      * right. exists child. split; [apply list_elem_of_here|done].
      * right. apply elem_of_app in Hs as [Hs|Hs].
        -- exists s. split; [by apply list_elem_of_further|done].
        -- exists child. split; [apply list_elem_of_here|].
           eapply rtc_l; [|exact Hsd].
           destruct (pm !! child) as [l|] eqn:Hl; simpl in Hs.
           ++ by exists l.
           ++ by apply elem_of_nil in Hs.
    + intros [Hd|(s & Hs & Hsd)]; [by left; left|].
      apply elem_of_cons in Hs as [->|Hs].
      * apply rtc_inv in Hsd as [->|(c & (l & Hl & Hc) & Hcd)]; [by left; right|].
        right. exists c. split; [|done]. apply elem_of_app. right.
        by rewrite Hl.
      * right. exists s. split; [|done]. apply elem_of_app. by left.
Qed.

(** [collectDescendants] returns the ids reachable from [parentId] in one
    or more steps of the relation index. *)
Lemma collectDescendants_spec fuel pm parentId descendants :
  collectDescendants fuel pm parentId = Some descendants →
  ∀ d, d ∈ descendants ↔ tc (in_index pm) parentId d.
Proof.
  unfold collectDescendants. intros Hres d.
  rewrite (collect_loop_spec pm _ _ _ _ Hres d). split.
  - intros [H|(s & Hs & Hsd)]; [by apply elem_of_nil in H|].
    eapply tc_rtc_r; [|exact Hsd]. apply tc_once.
    destruct (pm !! parentId) as [l|] eqn:Hl; [by exists l|].
    by apply elem_of_nil in Hs.
  - intros Htc. right.
    assert (∃ c, in_index pm parentId c ∧ rtc (in_index pm) c d)
      as (c & (l & Hl & Hc) & Hcd).
    { destruct Htc as [? ? H|? c ? H Htc]; [by eexists|].
      exists c. split; [done|]. by apply tc_rtc. }
    exists c. split; [|done]. by rewrite Hl.
Qed.

Lemma generateFlow_increasing (v : JSON) (st : AppState) :
  index_increasing (idCounter (generateFlow v st)) (parentMap (generateFlow v st)).
Proof.
  unfold generateFlow. simpl. apply traverse_increasing; [|done].
  intros p c (l & Hl & _). simpl in Hl. by rewrite lookup_empty in Hl.
Qed.

(** Every relation index the application ever installs is acyclic. *)
Lemma generateFlow_acyclic (v : JSON) (st : AppState) : index_acyclic (parentMap (generateFlow v st)).
Proof. eapply index_increasing_acyclic, generateFlow_increasing. Qed.

Lemma useEffect_body_acyclic (input : Input) mode (st : AppState) :
  index_acyclic (parentMap st) →
  index_acyclic (parentMap (useEffect_body input mode st)).
Proof.
  intros Hst. destruct input as [| |parsed]; simpl;
    [apply index_acyclic_empty..|].
  destruct mode; [done|apply generateFlow_acyclic].
Qed.

Lemma snapshot_fold_lookup (node : GraphNode) (nodeMap : gmap string Position)
    descendants :
  ∀ init d,
    foldl (record_descendant node nodeMap) init descendants !! d
    = if decide (d ∈ descendants) then Some (snapshot_entry node nodeMap d)
      else init !! d.
Proof.
  induction descendants as [|a l IH]; intros init d; cbn [foldl].
  - rewrite decide_False; [done|]. apply not_elem_of_nil.
  - rewrite IH. destruct (decide (d ∈ l)) as [Hl|Hl].
    + rewrite decide_True; [done|]. by apply list_elem_of_further.
    + unfold record_descendant. destruct (decide (d = a)) as [->|Hne].
      * rewrite decide_True by apply list_elem_of_here.
        unfold snapshot_entry. destruct (nodeMap !! a); by rewrite lookup_insert_eq.
      * rewrite decide_False by (rewrite elem_of_cons; tauto).
        destruct (nodeMap !! a); by rewrite lookup_insert_ne.
Qed.

Lemma take_snapshot_lookup (node : GraphNode) (nodeMap : gmap string Position)
    descendants d :
  d ∈ descendants →
  take_snapshot node nodeMap descendants !! d = Some (snapshot_entry node nodeMap d).
Proof.
  intros Hd. unfold take_snapshot. rewrite snapshot_fold_lookup.
  by rewrite decide_True.
Qed.

Lemma take_snapshot_root (node : GraphNode) (nodeMap : gmap string Position)
    descendants :
  is_Some (take_snapshot node nodeMap descendants !! id node).
Proof.
  unfold take_snapshot. rewrite snapshot_fold_lookup.
  destruct (decide _); [by eexists|]. rewrite lookup_singleton_eq. by eexists.
Qed.

Lemma take_snapshot_keys (node : GraphNode) (nodeMap : gmap string Position)
    descendants d :
  is_Some (take_snapshot node nodeMap descendants !! d) ↔
  d = id node ∨ d ∈ descendants.
Proof.
  unfold take_snapshot. rewrite snapshot_fold_lookup.
  destruct (decide (d ∈ descendants)) as [Hd|Hd].
  - split; [by right|by eexists].
  - destruct (decide (d = id node)) as [->|Hne].
    + rewrite lookup_singleton_eq. split; [by left|by eexists].
    + rewrite lookup_singleton_ne by done. split.
      * by intros [? ?].
      * intros [?|?]; done.
Qed.

Lemma nodeMap_fold_absent (nds : list GraphNode) d :
  (∀ n, n ∈ nds → id n ≠ d) →
  ∀ init : gmap string Position,
    foldl (λ m n, <[id n := position n]> m) init nds !! d = init !! d.
Proof.
  induction nds as [|n nds IH]; intros Hd init; simpl; [done|].
  rewrite IH.
  - apply lookup_insert_ne. apply Hd, list_elem_of_here.
  - intros n' Hn'. apply Hd. by apply list_elem_of_further.
Qed.

Lemma nodeMap_of_absent (nds : list GraphNode) d :
  (∀ n, n ∈ nds → id n ≠ d) → nodeMap_of nds !! d = None.
Proof.
  intros Hd. unfold nodeMap_of. by rewrite nodeMap_fold_absent.
Qed.

Lemma wf_store_empty : wf_store (∅ : gmap string (gmap string Position)).
Proof. intros r s Hs. by rewrite lookup_empty in Hs. Qed.

Lemma onNodeDragStart_wf fuel (node : GraphNode) (st st' : AppState) :
  wf_store (dragSnapshot st) → onNodeDragStart fuel node st = Some st' →
  wf_store (dragSnapshot st').
Proof.
  unfold onNodeDragStart. intros Hwf Hstart.
  destruct (collectDescendants fuel (parentMap st) (id node)) as [ds|]; [|done].
  injection Hstart as <-. simpl. intros r s.
  destruct (decide (r = id node)) as [->|Hne].
  - rewrite lookup_insert_eq. intros [= <-]. apply take_snapshot_root.
  - rewrite lookup_insert_ne by done. apply Hwf.
Qed.

Lemma onNodeDragStop_wf (node : GraphNode) (st : AppState) :
  wf_store (dragSnapshot st) → wf_store (dragSnapshot (onNodeDragStop node st)).
Proof.
  intros Hwf r s. simpl. intros [_ Hs]%lookup_delete_Some. by apply Hwf.
Qed.

(** A node without children in the relation index gets a snapshot that
    holds the node alone. *)
Lemma onNodeDragStart_leaf fuel (node : GraphNode) (st : AppState) :
  default [] (parentMap st !! id node) = [] →
  ∃ st' snapshot,
    onNodeDragStart fuel node st = Some st' ∧
    dragSnapshot st' !! id node = Some snapshot ∧
    ∀ d, is_Some (snapshot !! d) → d = id node.
Proof.
  intros Hleaf. unfold onNodeDragStart, collectDescendants.
  assert (match parentMap st !! id node with Some l => l | None => [] end = [])
    as -> by (by destruct (parentMap st !! id node)).
  destruct fuel; simpl; (do 2 eexists; split; [done|]); simpl;
    rewrite lookup_insert_eq; (split; [done|]);
    intros d [Hd|Hd]%take_snapshot_keys; try done; by apply elem_of_nil in Hd.
Qed.

(** ** Drag moves *)

Lemma move_node_id (snapshot : gmap string Position) dx dy (n : GraphNode) :
  id (move_node snapshot dx dy n) = id n.
Proof. unfold move_node. by destruct (snapshot !! id n). Qed.

Lemma move_node_idemp (snapshot : gmap string Position) dx dy (n : GraphNode) :
  move_node snapshot dx dy (move_node snapshot dx dy n) = move_node snapshot dx dy n.
Proof.
  unfold move_node at 2. destruct (snapshot !! id n) as [p|] eqn:Hp.
  - unfold move_node. simpl. by rewrite Hp.
  - unfold move_node. by rewrite Hp.
Qed.


Lemma move_node_outside (snapshot : gmap string Position) dx dy (n : GraphNode) :
  snapshot !! id n = None → move_node snapshot dx dy n = n.
Proof. intros Hp. unfold move_node. by rewrite Hp. Qed.

Lemma elem_of_other_keys (snapshot : gmap string Position) nodeId d :
  d ∈ other_keys snapshot nodeId ↔ d ≠ nodeId ∧ is_Some (snapshot !! d).
Proof.
  unfold other_keys. rewrite list_elem_of_filter, list_elem_of_fmap.
  split.
  - intros [Hne ([k p] & -> & Hin)]. split; [done|].
    apply elem_of_map_to_list in Hin. by eexists.
  - intros [Hne [p Hp]]. split; [done|]. exists (d, p). split; [done|].
    by apply elem_of_map_to_list.
Qed.

Lemma other_keys_some (snapshot : gmap string Position) nodeId d :
  d ≠ nodeId → is_Some (snapshot !! d) →
  (length (other_keys snapshot nodeId) =? 0) = false.
Proof.
  intros Hne Hd. apply Nat.eqb_neq. intros Hlen%nil_length_inv.
  assert (d ∈ other_keys snapshot nodeId) as Hin by by apply elem_of_other_keys.
  rewrite Hlen in Hin. by apply elem_of_nil in Hin.
Qed.

Lemma other_keys_none (snapshot : gmap string Position) nodeId :
  (∀ d, is_Some (snapshot !! d) → d = nodeId) →
  (length (other_keys snapshot nodeId) =? 0) = true.
Proof.
  intros Honly. apply Nat.eqb_eq.
  destruct (other_keys snapshot nodeId) as [|d l] eqn:Hl; [done|].
  assert (d ∈ other_keys snapshot nodeId) as [Hne Hd]%elem_of_other_keys
    by (rewrite Hl; apply list_elem_of_here).
  by specialize (Honly d Hd).
Qed.

(** With a well-formed store [onNodeDrag] completes; it keeps the store,
    the edges and the index, and the ids of the live nodes in place. *)
Lemma onNodeDrag_completes (node : GraphNode) (st : AppState) :
  wf_store (dragSnapshot st) →
  ∃ st', onNodeDrag node st = Ok st' ∧
         dragSnapshot st' = dragSnapshot st ∧
         id <$> nodes st' = id <$> nodes st.
Proof.
  intros Hwf. unfold onNodeDrag.
  destruct (dragSnapshot st !! id node) as [snapshot|] eqn:Hs; [|by eexists].
  destruct (Hwf _ _ Hs) as [startPos ->]. fold (other_keys snapshot (id node)).
  destruct (length (other_keys snapshot (id node)) =? 0); [by eexists|].
  eexists. split; [done|]. split; [done|]. simpl.
  rewrite <- list_fmap_compose. apply list_fmap_ext. intros i n _. simpl.
  apply move_node_id.
Qed.

Lemma dragMoves_completes (events : list GraphNode) :
  ∀ st : AppState, wf_store (dragSnapshot st) →
  ∃ st', dragMoves events st = Ok st' ∧
         dragSnapshot st' = dragSnapshot st ∧
         id <$> nodes st' = id <$> nodes st.
Proof.
  induction events as [|node events IH]; intros st Hwf; simpl; [by eexists|].
  destruct (onNodeDrag_completes node st Hwf) as (st1 & -> & Hds1 & Hid1). simpl.
  destruct (IH st1) as (st' & Hrun & Hds & Hid); [by rewrite Hds1|].
  exists st'. split; [done|]. split; congruence.
Qed.

Lemma dragMoves_app (events1 events2 : list GraphNode) (st : AppState) :
  dragMoves (events1 ++ events2) st = bind (dragMoves events1 st) (dragMoves events2).
Proof.
  revert st. induction events1 as [|node events1 IH]; intros st; simpl; [done|].
  destruct (onNodeDrag node st); simpl; [apply IH|done].
Qed.

(** ** Invariants of every run *)

Lemma onNodeDrag_store (node : GraphNode) (st st' : AppState) :
  onNodeDrag node st = Ok st' →
  dragSnapshot st' = dragSnapshot st ∧ parentMap st' = parentMap st.
Proof.
  unfold onNodeDrag. destruct (dragSnapshot st !! id node) as [snapshot|].
  - destruct (snapshot !! id node); [|done].
    destruct (length _ =? 0); by intros [= <-].
  - by intros [= <-].
Qed.

Lemma step_invariants (st : AppState) (ev : Event) (st' : AppState) :
  step st ev st' →
  wf_store (dragSnapshot st) ∧ index_acyclic (parentMap st) →
  wf_store (dragSnapshot st') ∧ index_acyclic (parentMap st').
Proof.
  intros Hstep [Hwf Hacyclic]. destruct Hstep as
    [input mode st|nds st|fuel node st st' Hstart|node st st' Hdrag|node st].
  - split; [|by apply useEffect_body_acyclic].
    destruct input as [| |parsed]; [done..|]. by destruct mode.
  - done.
  - split; [by eapply onNodeDragStart_wf|].
    unfold onNodeDragStart in Hstart.
    destruct (collectDescendants _ _ _); [|done]. by injection Hstart as <-.
  - destruct (onNodeDrag_store node st st' Hdrag) as [-> ->]. done.
  - split; [by apply onNodeDragStop_wf|done].
Qed.

(** In every reachable state each stored snapshot holds its own root and
    the relation index is acyclic. *)
Lemma reachable_invariants (st : AppState) :
  reachable st → wf_store (dragSnapshot st) ∧ index_acyclic (parentMap st).
Proof.
  induction 1 as [|st ev st' _ IH Hstep].
  - split; [apply wf_store_empty|apply index_acyclic_empty].
  - by eapply step_invariants.
Qed.

(** In a reachable state no drag-move throws. *)
Lemma onNodeDrag_never_throws (node : GraphNode) (st : AppState) :
  reachable st → ∃ st', onNodeDrag node st = Ok st'.
Proof.
  intros [Hwf _]%reachable_invariants.
  destruct (onNodeDrag_completes node st Hwf) as (st' & Hrun & _). by exists st'.
Qed.

(** ** The graph builder *)

(** C2 (as amended). For every JSON value the number of nodes built is 1,
    plus the number of entries across every container met by the
    traversal, plus the number of those entries whose value is itself a
    container: such an entry gets a key node and, one row below, the node
    of the nested container. Primitives (and [null]) add nothing. *)
Theorem generateFlow_node_count (v : JSON) (st : AppState) :
  length (nodes (generateFlow v st))
  = 1 + entries_encountered v + nested_containers v.
Proof.
  unfold generateFlow. simpl. rewrite traverse_length. simpl. lia.
Qed.

(** C3. In the graph built from any JSON value, [id2] is in the relation
    index entry of [id1] exactly when the edge set has an edge with source
    [id1] and target [id2]. *)
Theorem relationIndex_agrees_with_edges (v : JSON) (st : AppState) (id1 id2 : string) :
  (∃ children, parentMap (generateFlow v st) !! id1 = Some children ∧ id2 ∈ children)
  ↔ (∃ e, e ∈ edges (generateFlow v st) ∧ source e = id1 ∧ target e = id2).
Proof.
  unfold generateFlow. simpl. apply traverse_index_agrees.
  intros p c. split.
  - intros (l & Hl & _). simpl in Hl. by rewrite lookup_empty in Hl.
  - intros (e & He & _). by apply elem_of_nil in He.
Qed.

(** C4. Determinism: the nodes (ids, labels, positions), the edges and the
    relation index built from a JSON value do not depend on the state the
    build starts from; in particular building the same value twice in a
    row gives the state of the first build. *)
Theorem generateFlow_deterministic (v : JSON) (st1 st2 : AppState) :
  nodes (generateFlow v st1) = nodes (generateFlow v st2)
  ∧ edges (generateFlow v st1) = edges (generateFlow v st2)
  ∧ parentMap (generateFlow v st1) = parentMap (generateFlow v st2)
  ∧ idCounter (generateFlow v st1) = idCounter (generateFlow v st2)
  ∧ generateFlow v (generateFlow v st1) = generateFlow v st1.
Proof. done. Qed.

(** The label rule holds for every value other than [null]. *)
Lemma node_label_rule (node : JSON) :
  node ≠ JNull →
  node_label node =
    if Array_isArray node then "Array"
    else if is_container node then "Object"
    else String_ node.
Proof. by destruct node. Qed.

Lemma childLabel_rule (key : string) (val : JSON) :
  val ≠ JNull →
  childLabel key val =
    if is_container val then key else key +:+ ": " +:+ String_ val.
Proof. by destruct val. Qed.

(** C6, at the inputs where the source departs from the label rule. The
    node built for [null] is labelled "Object", not its string form
    "null"; and the entry node of an entry whose value is [null] carries
    the bare key, not "key: null". *)
Theorem null_labels (st : AppState) :
  label <$> nodes (generateFlow JNull st) = ["Object"]
  ∧ String_ (JNull : JSON) = "null"
  ∧ label <$> nodes (generateFlow (JObject [("a", JNull)]) st) = ["Object"; "a"]
  ∧ is_container (JNull : JSON) = false.
Proof. done. Qed.

(** C5 (as amended). A rebuild does not invalidate drag snapshots: after
    [generateFlow], and after any branch of the effect that triggers it,
    the store of drag snapshots is exactly what it was before. *)
Theorem rebuild_keeps_snapshots (v : JSON) (input : Input) (mode : Mode) (st : AppState) :
  dragSnapshot (generateFlow v st) = dragSnapshot st
  ∧ dragSnapshot (useEffect_body input mode st) = dragSnapshot st.
Proof. split; [done|]. destruct input; [done..|]. by destruct mode. Qed.

(** ** The drag session *)






(** C7. Idempotence: a drag-move repeated with the same node and position
    leaves the state, and so every live position, as the first call left
    it. *)
Theorem onNodeDrag_idempotent (node : GraphNode) (st : AppState) :
  bind (onNodeDrag node st) (onNodeDrag node) = onNodeDrag node st.
Proof.
  unfold onNodeDrag at 1 3.
  destruct (dragSnapshot st !! id node) as [snapshot|] eqn:Hs; simpl.
  - destruct (snapshot !! id node) as [startPos|] eqn:Hstart; [|done].
    fold (other_keys snapshot (id node)).
    destruct (length (other_keys snapshot (id node)) =? 0) eqn:Hlen; simpl;
      unfold onNodeDrag; simpl; rewrite Hs, Hstart;
      fold (other_keys snapshot (id node)); rewrite Hlen; [done|].
    do 2 f_equal. rewrite <- list_fmap_compose. apply list_fmap_ext.
    intros i n _. simpl. apply move_node_idemp.
  - unfold onNodeDrag. by rewrite Hs.
Qed.

(** C8. Frame: a drag-move of [node] that completes keeps the number of
    live nodes and leaves every live node whose id is not in the snapshot
    of [node] exactly as it was; and when the snapshot holds the dragged
    node alone (a node without children) the handler rewrites no live
    node at all, so nothing but the dragged node moves. *)
Theorem onNodeDrag_frame (node : GraphNode) (st st' : AppState)
    (snapshot : gmap string Position) :
  dragSnapshot st !! id node = Some snapshot →
  onNodeDrag node st = Ok st' →
  length (nodes st') = length (nodes st)
  ∧ (∀ i n, nodes st !! i = Some n → snapshot !! id n = None →
            nodes st' !! i = Some n)
  ∧ ((∀ d, is_Some (snapshot !! d) → d = id node) → nodes st' = nodes st).
Proof.
  intros Hs. unfold onNodeDrag. rewrite Hs.
  destruct (snapshot !! id node) as [startPos|]; [|done].
  fold (other_keys snapshot (id node)).
  destruct (length (other_keys snapshot (id node)) =? 0) eqn:Hlen;
    intros [= <-]; simpl.
  - done.
  - split; [by rewrite length_fmap|]. split.
    + intros i n Hi Hout. rewrite list_lookup_fmap, Hi. simpl.
      by rewrite move_node_outside.
    + intros Honly. by rewrite other_keys_none in Hlen.
Qed.

(** C9. A drag-move for a node id without a stored snapshot completes
    without an exception and returns the state unchanged. *)
Theorem onNodeDrag_without_snapshot (node : GraphNode) (st : AppState) :
  dragSnapshot st !! id node = None → onNodeDrag node st = Ok st.
Proof. intros Hs. unfold onNodeDrag. by rewrite Hs. Qed.

(** C10. Drag-start fallback. With an acyclic relation index (every index
    the application installs is) drag-start of [node] completes, whatever
    the live nodes are, once the loop is given enough iterations, and
    stores a snapshot for [id node]; every descendant [d] of [node] in the
    relation index that no live node carries is recorded at the dragged
    node's position moved down by 40. (The "parent" of the source is the
    dragged node.) *)
Theorem onNodeDragStart_fallback (node : GraphNode) (st : AppState) :
  index_acyclic (parentMap st) →
  ∃ fuel st' snapshot,
    (∀ fuel', fuel ≤ fuel' → onNodeDragStart fuel' node st = Some st')
    ∧ dragSnapshot st' !! id node = Some snapshot
    ∧ ∀ d, tc (in_index (parentMap st)) (id node) d →
           (∀ n, n ∈ nodes st → id n ≠ d) →
           snapshot !! d =
             Some {| x := x (position node);
                     y := num_add (y (position node)) (num_of_nat 40) |}.
Proof.
  intros Hacyclic.
  destruct (collectDescendants_terminates (parentMap st) (id node) Hacyclic)
    as (fuel & descendants & Hdesc).
  exists fuel. do 2 eexists. split.
  { intros fuel' Hle. unfold onNodeDragStart, collectDescendants.
    by rewrite (collect_loop_fuel_mono _ _ _ _ _ _ Hdesc Hle). }
  simpl. rewrite lookup_insert_eq.
  split; [done|]. intros d Hd Habsent.
  rewrite take_snapshot_lookup
    by by apply (collectDescendants_spec _ _ _ _ Hdesc).
  unfold snapshot_entry. by rewrite nodeMap_of_absent.
Qed.

(** ** Shape of the built graph *)

Lemma String_nat_inj : Inj (=) (=) String_nat.
Proof.
  intros m n Hmn. by rewrite <- (id_number_String_nat m), Hmn, id_number_String_nat.
Qed.

Lemma String_nat_nonempty k : 1 ≤ k → String_nat k ≠ "".
Proof.
  intros Hk Hempty. pose proof (id_number_String_nat k) as Hnum.
  rewrite Hempty in Hnum. vm_compute in Hnum. lia.
Qed.

(** The first node of a build. *)
Lemma well_built_first (b : Builder) (n : GraphNode) :
  well_built b → newNodes b = [] → id n = String_nat (counter b) →
  well_built (push_node n (nextId b).2).
Proof.
  intros (Hc & Hids & Htargets & Hedges & Hrel) Hnil Hn.
  rewrite Hnil in Hids, Htargets. simpl in Hids, Htargets.
  assert (counter b = 1) as Hone.
  { destruct (counter b) as [|[|c]]; [lia|done|]. simpl in Hids. discriminate. }
  apply fmap_nil_inv in Htargets.
  unfold well_built. simpl. rewrite Hnil, Htargets, Hone in *. simpl.
  rewrite Hn. split; [lia|]. split; [done|]. split; [done|]. split.
  - intros e He. by apply elem_of_nil in He.
  - intros p. specialize (Hrel p). by rewrite filter_nil in Hrel.
Qed.

(** A node pushed together with the edge from an earlier id to it. *)
Lemma well_built_child (b : Builder) (n : GraphNode) (k : nat) :
  well_built b → 1 ≤ k < counter b → id n = String_nat (counter b) →
  well_built
    (push_relation (String_nat k) (String_nat (counter b))
       (push_edge (mk_edge (String_nat k) (String_nat (counter b)))
          (push_node n (nextId b).2))).
Proof.
  intros (Hc & Hids & Htargets & Hedges & Hrel) Hk Hn.
  unfold well_built. simpl. split; [lia|]. split; [|split; [|split]].
  - rewrite fmap_app, Hids. simpl. rewrite Hn, Nat.sub_0_r.
    replace (counter b) with (S (counter b - 1)) at 3 by lia.
    rewrite seq_S, fmap_app. simpl. do 3 f_equal. lia.
  - rewrite !fmap_app, Htargets. simpl. rewrite Hn.
    rewrite drop_app_le; [done|]. rewrite Hids, length_fmap, length_seq. lia.
  - intros e [He| ->%list_elem_of_singleton]%elem_of_app; [by apply Hedges|].
    split; [done|]. exists k. simpl. rewrite id_number_String_nat.
    split; [done|lia].
  - intros p. rewrite filter_app, fmap_app.
    destruct (decide (String_nat k = p)) as [<-|Hne].
    + rewrite lookup_insert_eq. simpl. rewrite (Hrel (String_nat k)).
      f_equal. rewrite filter_cons, decide_True by done. done.
    + rewrite lookup_insert_ne by done. rewrite (Hrel p).
      rewrite filter_cons, decide_False by done.
      by rewrite filter_nil, app_nil_r.
Qed.

Lemma visit_self_well_built (node : JSON) depth centerX parentId (b : Builder) :
  well_built b → parent_allocated parentId b →
  well_built (visit_self node depth centerX parentId b).2
  ∧ counter (visit_self node depth centerX parentId b).2 = S (counter b)
  ∧ (visit_self node depth centerX parentId b).1.1 = String_nat (counter b).
Proof.
  intros Hb Hp. unfold visit_self. simpl. destruct parentId as [p|]; simpl.
  - destruct Hp as (k & -> & Hk).
    destruct (String.eqb_spec (String_nat k) "") as [Hempty|_]; simpl.
    { exfalso. by apply (String_nat_nonempty k); [lia|]. }
    split; [|done]. by apply (well_built_child b _ k).
  - split; [|done]. by apply (well_built_first b).
Qed.

Lemma traverse_well_built (node : JSON) :
  ∀ depth centerX parentId (b : Builder),
    well_built b → parent_allocated parentId b →
    well_built (traverse node depth centerX parentId b)
    ∧ counter b < counter (traverse node depth centerX parentId b).
Proof.
  induction node as [node IH] using JSON_entries_ind.
  intros depth centerX parentId b Hb Hp. rewrite traverse_unfold.
  destruct (visit_self_well_built node depth centerX parentId b Hb Hp)
    as (Hb1 & Hc1 & Hid).
  destruct (visit_self node depth centerX parentId b) as [[currentId yy] b1].
  simpl in Hb1, Hc1, Hid. subst currentId.
  destruct (String.eqb (typeof node) "object" && negb (is_null node));
    [|split; [done|lia]].
  cbv zeta.
  apply (forEach_inv (λ s, well_built s ∧ counter b < counter s));
    [|split; [done|lia]].
  intros [key val] i s Hin [Hs Hlt]. unfold visit_entry. simpl.
  set (s' := push_relation _ _ _).
  assert (well_built s' ∧ counter s' = S (counter s)) as [Hs' Hc'].
  { split; [|done]. apply (well_built_child s _ (counter b)); [done| |done].
    destruct Hb as [Hb _]. lia. }
  destruct (String.eqb (typeof val) "object" && negb (is_null val));
    [|split; [done|lia]].
  destruct (IH key val Hin (num_add depth (num_of_nat 2))
              (num_add (startX_of centerX (length (Object_entries node)))
                 (num_mul (num_of_nat i) spacing))
              (Some (String_nat (counter s))) s' Hs') as [Hr Hcr].
  - exists (counter s). split; [done|]. destruct Hs as [Hs _]. lia.
  - split; [done|lia].
Qed.

Lemma generateFlow_well_built (v : JSON) (st : AppState) :
  well_built {| counter := idCounter (generateFlow v st);
                newNodes := nodes (generateFlow v st);
                newEdges := edges (generateFlow v st);
                relations := parentMap (generateFlow v st) |}.
Proof.
  unfold generateFlow. cbn [idCounter nodes edges parentMap].
  set (b0 := {| counter := 1; newNodes := []; newEdges := []; relations := ∅ |}).
  assert (well_built b0) as Hb0.
  { unfold well_built. simpl. split; [lia|]. do 2 (split; [done|]). split.
    - intros e He. by apply elem_of_nil in He.
    - intros p. by rewrite lookup_empty. }
  destruct (traverse_well_built v (num_of_nat 0) (num_of_nat 0) None b0 Hb0)
    as [Hwb _]; [done|].
  by destruct (traverse v (num_of_nat 0) (num_of_nat 0) None b0).
Qed.

Lemma generateFlow_counter (v : JSON) (st : AppState) :
  idCounter (generateFlow v st) = S (length (nodes (generateFlow v st))).
Proof.
  destruct (generateFlow_well_built v st) as (Hc & Hids & _). cbn [counter newNodes] in Hc, Hids.
  apply (f_equal length) in Hids. rewrite !length_fmap, length_seq in Hids. lia.
Qed.

Lemma generateFlow_ids_seq (v : JSON) (st : AppState) :
  id <$> nodes (generateFlow v st)
  = String_nat <$> seq 1 (length (nodes (generateFlow v st))).
Proof.
  destruct (generateFlow_well_built v st) as (_ & Hids & _). cbn [counter newNodes] in Hids.
  by rewrite Hids, generateFlow_counter, Nat.sub_succ, Nat.sub_0_r.
Qed.

Lemma generateFlow_ids_NoDup (v : JSON) (st : AppState) :
  NoDup (id <$> nodes (generateFlow v st)).
Proof.
  rewrite generateFlow_ids_seq.
  apply (@NoDup_fmap_2 _ _ String_nat String_nat_inj), NoDup_seq.
Qed.

Lemma generateFlow_targets_NoDup (v : JSON) (st : AppState) :
  NoDup (target <$> edges (generateFlow v st)).
Proof.
  destruct (generateFlow_well_built v st) as (_ & _ & Htargets & _).
  cbn [newNodes newEdges] in Htargets. rewrite Htargets.
  eapply sublist_NoDup; [apply generateFlow_ids_NoDup|apply sublist_drop].
Qed.

Lemma NoDup_fmap_eq {A B} (f : A → B) (l : list A) a a' :
  NoDup (f <$> l) → a ∈ l → a' ∈ l → f a = f a' → a = a'.
Proof.
  induction l as [|a0 l IH]; intros Hnd Ha Ha' Hf; [by apply elem_of_nil in Ha|].
  rewrite fmap_cons in Hnd. apply NoDup_cons in Hnd as [Hnotin Hnd].
  apply elem_of_cons in Ha as [->|Ha]; apply elem_of_cons in Ha' as [->|Ha'].
  - done.
  - exfalso. apply Hnotin. rewrite Hf. by apply list_elem_of_fmap_2.
  - exfalso. apply Hnotin. rewrite <- Hf. by apply list_elem_of_fmap_2.
  - by apply IH.
Qed.

(** An index entry is an edge: the children of [p] are the targets of the
    edges leaving [p]. *)
Lemma generateFlow_index_edge (v : JSON) (st : AppState) p c :
  in_index (parentMap (generateFlow v st)) p c ↔
  ∃ e, e ∈ edges (generateFlow v st) ∧ source e = p ∧ target e = c.
Proof.
  destruct (generateFlow_well_built v st) as (_ & _ & _ & _ & Hrel).
  cbn [newEdges relations] in Hrel. specialize (Hrel p). unfold in_index. split.
  - intros (l & Hl & Hc). rewrite Hl in Hrel. simpl in Hrel. rewrite Hrel in Hc.
    apply list_elem_of_fmap in Hc as (e & -> & [Hs He]%list_elem_of_filter).
    by exists e.
  - intros (e & He & Hs & Ht).
    assert (c ∈ default [] (parentMap (generateFlow v st) !! p)) as Hc.
    { rewrite Hrel, <- Ht. apply list_elem_of_fmap_2.
      by apply list_elem_of_filter. }
    destruct (parentMap (generateFlow v st) !! p) as [l|]; simpl in Hc.
    + by exists l.
    + by apply elem_of_nil in Hc.
Qed.

Lemma generateFlow_unique_parent (v : JSON) (st : AppState) p p' c :
  in_index (parentMap (generateFlow v st)) p c →
  in_index (parentMap (generateFlow v st)) p' c → p = p'.
Proof.
  intros (e & He & <- & Ht)%generateFlow_index_edge
         (e' & He' & <- & Ht')%generateFlow_index_edge.
  f_equal. eapply NoDup_fmap_eq; [apply generateFlow_targets_NoDup|done..|].
  congruence.
Qed.

Lemma generateFlow_children_NoDup (v : JSON) (st : AppState) p l :
  parentMap (generateFlow v st) !! p = Some l → NoDup l.
Proof.
  intros Hl. destruct (generateFlow_well_built v st) as (_ & _ & _ & _ & Hrel).
  cbn [newEdges relations] in Hrel. specialize (Hrel p). rewrite Hl in Hrel. simpl in Hrel.
  rewrite Hrel. eapply sublist_NoDup; [apply (generateFlow_targets_NoDup v st)|].
  apply fmap_sublist. apply (sublist_filter (λ e : GraphEdge, source e = p)).
Qed.

(** X1. The nodes of a built graph carry the ids "1", "2", ..., "n" in
    creation order, so the ids are pairwise distinct, and the counter is
    left at n + 1. *)
Theorem generateFlow_ids (v : JSON) (st : AppState) :
  id <$> nodes (generateFlow v st)
  = String_nat <$> seq 1 (length (nodes (generateFlow v st)))
  ∧ NoDup (id <$> nodes (generateFlow v st))
  ∧ idCounter (generateFlow v st) = S (length (nodes (generateFlow v st))).
Proof.
  split; [apply generateFlow_ids_seq|].
  split; [apply generateFlow_ids_NoDup|apply generateFlow_counter].
Qed.

(** X2. The built graph is a tree on its nodes: the targets of the edges,
    in creation order, are the ids of all nodes but the first, each once;
    so there is one edge less than there are nodes and the root is the
    target of no edge. *)
Theorem generateFlow_edges_tree (v : JSON) (st : AppState) :
  target <$> edges (generateFlow v st) = drop 1 (id <$> nodes (generateFlow v st))
  ∧ length (edges (generateFlow v st)) + 1 = length (nodes (generateFlow v st))
  ∧ NoDup (target <$> edges (generateFlow v st))
  ∧ String_nat 1 ∉ target <$> edges (generateFlow v st).
Proof.
  destruct (generateFlow_well_built v st) as (_ & _ & Htargets & _).
  cbn [newNodes newEdges] in Htargets. split; [done|].
  assert (1 ≤ length (nodes (generateFlow v st))) as Hpos.
  { unfold generateFlow. simpl. rewrite traverse_length. simpl. lia. }
  split; [|split; [apply generateFlow_targets_NoDup|]].
  - apply (f_equal length) in Htargets.
    rewrite length_drop, !length_fmap in Htargets. lia.
  - rewrite Htargets, generateFlow_ids_seq.
    destruct (length (nodes (generateFlow v st))) as [|n]; [lia|].
    simpl. rewrite drop_0. intros (k & Hk%String_nat_inj & Hin)%list_elem_of_fmap.
    apply elem_of_seq in Hin. lia.
Qed.

(** X3. Every edge of a built graph joins two of its nodes, from an
    earlier id to a later one, and its own id is "e<source>-<target>". *)
Theorem generateFlow_edges_between_nodes (v : JSON) (st : AppState) (e : GraphEdge) :
  e ∈ edges (generateFlow v st) →
  source e ∈ id <$> nodes (generateFlow v st)
  ∧ target e ∈ id <$> nodes (generateFlow v st)
  ∧ id_number (source e) < id_number (target e)
  ∧ edge_id e = "e" +:+ source e +:+ "-" +:+ target e.
Proof.
  intros He.
  destruct (generateFlow_well_built v st) as (_ & _ & Htargets & Hedges & _).
  cbn [newNodes newEdges] in Htargets, Hedges. destruct (Hedges e He) as (Hmk & k & Hs & Hk).
  assert (target e ∈ id <$> nodes (generateFlow v st)) as Ht.
  { eapply elem_of_sublist; [|apply (sublist_drop _ 1)].
    rewrite <- Htargets. by apply list_elem_of_fmap_2. }
  split; [|split; [done|split]].
  - rewrite generateFlow_ids_seq in Ht |- *.
    apply list_elem_of_fmap in Ht as (j & Hj & Hin). rewrite Hj in Hk.
    rewrite id_number_String_nat in Hk. rewrite Hs.
    apply list_elem_of_fmap_2, elem_of_seq. apply elem_of_seq in Hin. lia.
  - rewrite Hs, id_number_String_nat. lia.
  - by rewrite Hmk at 1.
Qed.

(** X4. The relation index of a built graph is a tree: the ids listed as
    children are exactly the ids of the nodes after the first, a child is
    listed under one parent only, and only once there. *)
Theorem generateFlow_index_tree (v : JSON) (st : AppState) :
  (∀ c, (∃ p, in_index (parentMap (generateFlow v st)) p c)
        ↔ c ∈ drop 1 (id <$> nodes (generateFlow v st)))
  ∧ (∀ p p' c, in_index (parentMap (generateFlow v st)) p c →
               in_index (parentMap (generateFlow v st)) p' c → p = p')
  ∧ (∀ p l, parentMap (generateFlow v st) !! p = Some l → NoDup l).
Proof.
  split; [|split].
  - intros c.
    destruct (generateFlow_well_built v st) as (_ & _ & Htargets & _).
    cbn [newNodes newEdges] in Htargets. rewrite <- Htargets. split.
    + intros (p & (e & He & _ & <-)%generateFlow_index_edge).
      by apply list_elem_of_fmap_2.
    + intros (e & -> & He)%list_elem_of_fmap. exists (source e).
      apply generateFlow_index_edge. by exists e.
  - apply generateFlow_unique_parent.
  - apply generateFlow_children_NoDup.
Qed.

(** ** The breadth-first walk on a forest *)

Lemma elem_of_children (pm : gmap string (list string)) p c :
  c ∈ default [] (pm !! p) ↔ in_index pm p c.
Proof.
  unfold in_index. destruct (pm !! p) as [l|]; simpl; split.
  - intros Hc. by exists l.
  - by intros (l' & [= <-] & Hc).
  - by intros Hc%elem_of_nil.
  - by intros (l' & ? & _).
Qed.

Lemma index_acyclic_irrefl (pm : gmap string (list string)) s :
  index_acyclic pm → ¬ tc (in_index pm) s s.
Proof.
  intros [rk Hrk] Hss.
  assert (∀ a b, tc (in_index pm) a b → rk b < rk a) as Hdown.
  { induction 1 as [a b Hab|a b c Hab _ IH]; [by apply Hrk|].
    specialize (Hrk a b Hab). lia. }
  specialize (Hdown s s Hss). lia.
Qed.

(** With one parent per child, a path to [d] passes through the parent
    of [d]. *)
Lemma tc_through_parent (pm : gmap string (list string)) s q d :
  (∀ p p' c, in_index pm p c → in_index pm p' c → p = p') →
  tc (in_index pm) s d → in_index pm q d → rtc (in_index pm) s q.
Proof.
  intros Huniq Hsd Hqd.
  assert (∃ q', rtc (in_index pm) s q' ∧ in_index pm q' d) as (q' & Hsq' & Hq'd).
  { clear Hqd. induction Hsd as [a b Hab|a b c Hab _ (q' & Hbq' & Hq'c)].
    - by exists a.
    - exists q'. split; [by eapply rtc_l|done]. }
  by rewrite (Huniq q q' d Hqd Hq'd).
Qed.

Lemma bfs_fresh_start (pm : gmap string (list string)) r :
  index_forest pm → bfs_fresh pm (default [] (pm !! r)) [].
Proof.
  intros (Hacyclic & Huniq & Hnodup). split; simpl.
  - destruct (pm !! r) as [l|] eqn:Hl; simpl; [by eapply Hnodup|apply NoDup_nil_2].
  - intros s d Hs%elem_of_children Hsd Hd%elem_of_children.
    apply (index_acyclic_irrefl pm s Hacyclic).
    eapply tc_rtc_l; [by eapply tc_through_parent|by apply tc_once].
Qed.

Lemma bfs_fresh_step (pm : gmap string (list string)) child rest collected :
  index_forest pm →
  bfs_fresh pm (child :: rest) collected →
  bfs_fresh pm (rest ++ default [] (pm !! child)) (collected ++ [child]).
Proof.
  intros (Hacyclic & Huniq & Hnodup) [Hnd Hfresh].
  assert (∀ l : list string, (collected ++ [child]) ++ rest ++ l
                             = (collected ++ child :: rest) ++ l) as Hshape.
  { intros l. by rewrite <- !app_assoc. }
  assert (child ∈ child :: rest) as Hhead by apply list_elem_of_here.
  split; rewrite Hshape.
  - apply NoDup_app. split; [done|]. split.
    + intros c Hc Hchild%elem_of_children.
      by apply (Hfresh child c Hhead (tc_once _ _ _ Hchild)).
    + destruct (pm !! child) as [l|] eqn:Hl; simpl;
        [by eapply Hnodup|apply NoDup_nil_2].
  - intros s d Hs Hsd [Hd|Hd%elem_of_children]%elem_of_app.
    + apply elem_of_app in Hs as [Hs|Hs%elem_of_children].
      * by apply (Hfresh s d (list_elem_of_further _ _ _ Hs) Hsd).
      * apply (Hfresh child d Hhead); [|done]. by eapply tc_l.
    + pose proof (tc_through_parent pm s child d Huniq Hsd Hd) as Hpath.
      apply elem_of_app in Hs as [Hs|Hs%elem_of_children].
      * apply rtc_tc in Hpath as [->|Hpath].
        -- apply NoDup_app in Hnd as (_ & _ & [Hnotin _]%NoDup_cons). done.
        -- apply (Hfresh s child (list_elem_of_further _ _ _ Hs) Hpath).
           apply elem_of_app. right. apply list_elem_of_here.
      * apply (index_acyclic_irrefl pm s Hacyclic).
        eapply tc_rtc_l; [done|by apply tc_once].
Qed.

Lemma collect_loop_NoDup (pm : gmap string (list string)) :
  index_forest pm →
  ∀ fuel stack collected result,
    bfs_fresh pm stack collected →
    collect_loop fuel pm stack collected = Some result → NoDup result.
Proof.
  intros Hforest. induction fuel as [|fuel IH];
    intros stack collected result Hfresh Hres.
  - destruct stack; [|done]. injection Hres as <-.
    destruct Hfresh as [Hnd _]. by rewrite app_nil_r in Hnd.
  - destruct stack as [|child rest].
    { injection Hres as <-. destruct Hfresh as [Hnd _].
      by rewrite app_nil_r in Hnd. }
    rewrite collect_loop_step in Hres.
    eapply IH; [|exact Hres]. by apply bfs_fresh_step.
Qed.

(** The loop runs once per collected id. *)
Lemma collect_loop_iterations (pm : gmap string (list string)) :
  ∀ fuel stack collected result,
    collect_loop fuel pm stack collected = Some result →
    ∃ k, length result = length collected + k
         ∧ collect_loop k pm stack collected = Some result.
Proof.
  induction fuel as [|fuel IH]; intros stack collected result Hres.
  - destruct stack; [|done]. injection Hres as <-. exists 0. split; [lia|done].
  - destruct stack as [|child rest].
    { injection Hres as <-. exists 0. split; [lia|done]. }
    rewrite collect_loop_step in Hres.
    destruct (IH _ _ _ Hres) as (k & Hlen & Hk). exists (S k).
    rewrite length_app in Hlen. simpl in Hlen. split; [lia|].
    by rewrite collect_loop_step.
Qed.

Lemma generateFlow_forest (v : JSON) (st : AppState) :
  index_forest (parentMap (generateFlow v st)).
Proof.
  split; [apply generateFlow_acyclic|].
  split; [apply generateFlow_unique_parent|apply generateFlow_children_NoDup].
Qed.

(** X5. On the index of a built graph [collectDescendants] finishes
    within as many iterations as the graph has nodes less one, for every
    start id, and returns each id below the start id exactly once (the
    ids reachable through one or more index steps, all of them ids of
    nodes). *)
Theorem collectDescendants_built (v : JSON) (st : AppState) (r : string) :
  ∃ descendants,
    (∀ fuel, length (nodes (generateFlow v st)) - 1 ≤ fuel →
       collectDescendants fuel (parentMap (generateFlow v st)) r = Some descendants)
    ∧ NoDup descendants
    ∧ (∀ d, d ∈ descendants ↔ tc (in_index (parentMap (generateFlow v st))) r d)
    ∧ (∀ d, d ∈ descendants → d ∈ id <$> nodes (generateFlow v st)).
Proof.
  set (pm := parentMap (generateFlow v st)).
  destruct (collectDescendants_terminates pm r (generateFlow_acyclic v st))
    as (fuel0 & descendants & Hres).
  pose proof (collectDescendants_spec _ _ _ _ Hres) as Hspec.
  assert (NoDup descendants) as Hnd.
  { eapply (collect_loop_NoDup pm (generateFlow_forest v st));
      [|exact Hres].
    assert (match pm !! r with Some l => l | None => [] end = default [] (pm !! r))
      as -> by by destruct (pm !! r).
    apply bfs_fresh_start, generateFlow_forest. }
  assert (∀ d, d ∈ descendants → d ∈ drop 1 (id <$> nodes (generateFlow v st)))
    as Hsub.
  { intros d Hd%Hspec.
    destruct (generateFlow_well_built v st) as (_ & _ & Htargets & _).
    cbn [newNodes newEdges] in Htargets. rewrite <- Htargets.
    assert (∃ q, in_index pm q d) as [q (e & He & _ & <-)%generateFlow_index_edge].
    { destruct Hd as [a b Hab|a b c Hab Hbc].
      - by exists a.
      - clear Hab. induction Hbc as [b c Hbc|b c' c Hbc _ IH]; [by exists b|done]. }
    by apply list_elem_of_fmap_2. }
  exists descendants. split; [|split; [done|split; [done|]]].
  - intros fuel Hfuel. unfold collectDescendants in *.
    destruct (collect_loop_iterations _ _ _ _ _ Hres) as (k & Hlen & Hk).
    eapply collect_loop_fuel_mono; [exact Hk|]. simpl in Hlen. subst k.
    etrans; [|exact Hfuel].
    etrans; [apply submseteq_length, NoDup_submseteq; [exact Hnd|exact Hsub]|].
    by rewrite length_drop, length_fmap.
  - intros d Hd. eapply elem_of_sublist; [by apply Hsub|apply sublist_drop].
Qed.

(** ** The life of a drag *)

Lemma Position_eta (p : Position) : {| x := x p; y := y p |} = p.
Proof. by destruct p. Qed.

Lemma nodeMap_fold_lookup (nds : list GraphNode) (n : GraphNode) :
  NoDup (id <$> nds) → n ∈ nds →
  ∀ init : gmap string Position,
    foldl (λ m n, <[id n := position n]> m) init nds !! id n = Some (position n).
Proof.
  induction nds as [|a nds IH]; intros Hnd Hn init; [by apply elem_of_nil in Hn|].
  rewrite fmap_cons in Hnd. apply NoDup_cons in Hnd as [Hnotin Hnd]. simpl.
  apply elem_of_cons in Hn as [->|Hn]; [|by apply IH].
  rewrite nodeMap_fold_absent; [apply lookup_insert_eq|].
  intros n' Hn' Heq. apply Hnotin. rewrite <- Heq. by apply list_elem_of_fmap_2.
Qed.

(** With distinct ids among the live nodes, [nodeMap] holds the position
    of each of them. *)
Lemma nodeMap_of_lookup (nds : list GraphNode) (n : GraphNode) :
  NoDup (id <$> nds) → n ∈ nds → nodeMap_of nds !! id n = Some (position n).
Proof. intros Hnd Hn. by apply nodeMap_fold_lookup. Qed.

Lemma onNodeDragStart_inv fuel (node : GraphNode) (st st' : AppState) :
  onNodeDragStart fuel node st = Some st' →
  ∃ descendants,
    collectDescendants fuel (parentMap st) (id node) = Some descendants
    ∧ st' = {| idCounter := idCounter st; nodes := nodes st; edges := edges st;
               parentMap := parentMap st;
               dragSnapshot :=
                 <[id node := take_snapshot node (nodeMap_of (nodes st)) descendants]>
                   (dragSnapshot st) |}.
Proof.
  unfold onNodeDragStart.
  destruct (collectDescendants fuel (parentMap st) (id node)) as [ds|]; [|done].
  intros [= <-]. by exists ds.
Qed.

(** X6. What drag-start records. It changes nothing but the snapshot
    stored for the dragged id, which it replaces. The keys of the new
    snapshot are the dragged id and the ids below it in the relation
    index; the dragged id maps to the position the event carries (unless
    the index loops back to it), and, when the live ids are distinct,
    every live node below maps to its live position. *)
Theorem onNodeDragStart_snapshot fuel (node : GraphNode) (st st' : AppState) :
  onNodeDragStart fuel node st = Some st' →
  ∃ snapshot,
    st' = {| idCounter := idCounter st; nodes := nodes st; edges := edges st;
             parentMap := parentMap st;
             dragSnapshot := <[id node := snapshot]> (dragSnapshot st) |}
    ∧ (∀ d, is_Some (snapshot !! d) ↔
            d = id node ∨ tc (in_index (parentMap st)) (id node) d)
    ∧ (¬ tc (in_index (parentMap st)) (id node) (id node) →
       snapshot !! id node = Some (position node))
    ∧ (NoDup (id <$> nodes st) →
       ∀ n, n ∈ nodes st → tc (in_index (parentMap st)) (id node) (id n) →
            snapshot !! id n = Some (position n)).
Proof.
  intros (descendants & Hdesc & ->)%onNodeDragStart_inv.
  pose proof (collectDescendants_spec _ _ _ _ Hdesc) as Hspec.
  eexists. split; [done|]. split; [|split].
  - intros d. rewrite take_snapshot_keys. by rewrite Hspec.
  - intros Hloop. unfold take_snapshot. rewrite snapshot_fold_lookup.
    rewrite decide_False by by rewrite Hspec.
    by rewrite lookup_singleton_eq, Position_eta.
  - intros Hnd n Hn Hbelow. rewrite take_snapshot_lookup by by apply Hspec.
    unfold snapshot_entry. rewrite (nodeMap_of_lookup _ n Hnd Hn).
    by rewrite Position_eta.
Qed.

(** X7. Drag-start followed by drag-stop of the same node restores the
    state, when no snapshot was stored for that id before. *)
Theorem dragStart_dragStop fuel (node : GraphNode) (st st' : AppState) :
  dragSnapshot st !! id node = None →
  onNodeDragStart fuel node st = Some st' →
  onNodeDragStop node st' = st.
Proof.
  intros Hnone (descendants & _ & ->)%onNodeDragStart_inv.
  unfold onNodeDragStop. simpl. rewrite delete_insert_eq, delete_id by done.
  by destruct st.
Qed.

(** X8. After drag-stop of a node a drag-move for its id, at whatever
    position, changes nothing; a second drag-stop changes nothing either;
    and the snapshots of other ids are kept. *)
Theorem onNodeDragStop_ends_drag (node : GraphNode) (p : Position) (st : AppState) :
  onNodeDrag (set_position node p) (onNodeDragStop node st)
    = Ok (onNodeDragStop node st)
  ∧ onNodeDragStop node (onNodeDragStop node st) = onNodeDragStop node st
  ∧ ∀ r, r ≠ id node →
         dragSnapshot (onNodeDragStop node st) !! r = dragSnapshot st !! r.
Proof.
  split; [|split].
  - unfold onNodeDrag. simpl. by rewrite lookup_delete_eq.
  - unfold onNodeDragStop. simpl. by rewrite delete_delete_eq.
  - intros r Hr. simpl. by rewrite lookup_delete_ne.
Qed.

Lemma move_node_same (snapshot : gmap string Position) dx dy (n : GraphNode) :
  same_but_position n (move_node snapshot dx dy n).
Proof. unfold move_node, same_but_position. by destruct (snapshot !! id n). Qed.

Lemma same_but_position_trans (n1 n2 n3 : GraphNode) :
  same_but_position n1 n2 → same_but_position n2 n3 → same_but_position n1 n3.
Proof. unfold same_but_position. intros (?&?&?&?) (?&?&?&?). repeat split; congruence. Qed.

Lemma onNodeDrag_only_positions (node : GraphNode) (st st' : AppState) :
  onNodeDrag node st = Ok st' →
  idCounter st' = idCounter st ∧ edges st' = edges st
  ∧ parentMap st' = parentMap st ∧ dragSnapshot st' = dragSnapshot st
  ∧ Forall2 same_but_position (nodes st) (nodes st').
Proof.
  assert (Forall2 same_but_position (nodes st) (nodes st)) as Hrefl.
  { apply Forall_Forall2_diag, Forall_forall. by intros n _. }
  unfold onNodeDrag. destruct (dragSnapshot st !! id node) as [snapshot|].
  - destruct (snapshot !! id node); [|done].
    destruct (length _ =? 0); intros [= <-]; [done|]. simpl.
    repeat split. apply Forall2_fmap_r, Forall_Forall2_diag, Forall_forall.
    intros n _. apply move_node_same.
  - by intros [= <-].
Qed.

(** X9. A run of drag-moves that completes changes nothing but positions:
    the snapshot store, the edges, the relation index and the counter are
    as before, and the live nodes are the same nodes in the same order up
    to their positions. *)
Theorem dragMoves_only_positions (events : list GraphNode) (st st' : AppState) :
  dragMoves events st = Ok st' →
  idCounter st' = idCounter st ∧ edges st' = edges st
  ∧ parentMap st' = parentMap st ∧ dragSnapshot st' = dragSnapshot st
  ∧ Forall2 same_but_position (nodes st) (nodes st').
Proof.
  revert st. induction events as [|node events IH]; intros st; simpl.
  - intros [= <-]. repeat split. apply Forall_Forall2_diag, Forall_forall.
    by intros n _.
  - destruct (onNodeDrag node st) as [st1|] eqn:Hstep; [|done]. simpl.
    intros Hrun.
    destruct (onNodeDrag_only_positions node st st1 Hstep)
      as (Hc1 & He1 & Hp1 & Hd1 & H1).
    destruct (IH st1 Hrun) as (Hc2 & He2 & Hp2 & Hd2 & H2).
    do 4 (split; [congruence|]).
    eapply Forall2_trans; [|exact H1|exact H2].
    intros n1 n2 n3. apply same_but_position_trans.
Qed.


(** X11. In every state the application can reach, whatever the renderer
    did to the live nodes, no handler fails: each stored snapshot holds
    its own root and the relation index is acyclic, so a drag-move
    completes without an exception and the loop of drag-start finishes. *)
Theorem reachable_handlers_complete (node : GraphNode) (st : AppState) :
  reachable st →
  wf_store (dragSnapshot st)
  ∧ index_acyclic (parentMap st)
  ∧ (∃ st', onNodeDrag node st = Ok st')
  ∧ (∃ fuel st', ∀ fuel', fuel ≤ fuel' → onNodeDragStart fuel' node st = Some st').
Proof.
  intros Hreach. destruct (reachable_invariants st Hreach) as [Hwf Hacyclic].
  split; [done|]. split; [done|]. split.
  - destruct (onNodeDrag_completes node st Hwf) as (st' & Hrun & _). by exists st'.
  - destruct (collectDescendants_terminates (parentMap st) (id node) Hacyclic)
      as (fuel & descendants & Hdesc).
    exists fuel. eexists. intros fuel' Hle.
    unfold onNodeDragStart, collectDescendants.
    by rewrite (collect_loop_fuel_mono _ _ _ _ _ _ Hdesc Hle).
Qed.

(** ** Labels in creation order *)

Lemma forEach_app {A St B : Type} (m : St → list B) (w : A → list B)
    (f : A → nat → St → St) l :
  (∀ a j s, a ∈ l → m (f a j s) = m s ++ w a) →
  ∀ i s, m (forEach f l i s) = m s ++ flat_map w l.
Proof.
  induction l as [|a l IH]; intros step i s; simpl; [by rewrite app_nil_r|].
  rewrite IH.
  - rewrite step by apply list_elem_of_here. by rewrite <- app_assoc.
  - intros a' j' s' Ha'. apply step. by apply list_elem_of_further.
Qed.

Lemma labels_each_array (W : string → JSON → list string) items :
  ∀ k,
    (fix each (l : list JSON) (i : nat) : list string :=
       match l with
       | [] => []
       | val :: rest => W (String_nat i) val ++ each rest (S i)
       end) items k
    = flat_map (λ kv, W kv.1 kv.2) (imap (λ j e, (String_nat (k + j), e)) items).
Proof.
  induction items as [|e items IH]; intros k; [done|].
  simpl. rewrite Nat.add_0_r, IH. do 2 f_equal.
  apply imap_ext. intros j e' _. simpl. by rewrite Nat.add_succ_r.
Qed.

Lemma labels_of_unfold (v : JSON) :
  labels_of v =
    value_label v ::
    flat_map (λ kv, entry_label kv.1 kv.2
                      :: (if is_container kv.2 then labels_of kv.2 else []))
      (Object_entries v).
Proof.
  destruct v as [| | | |items|fields]; try done; cbn [labels_of]; f_equal.
  apply (labels_each_array
    (λ key val, entry_label key val
                  :: (if is_container val then labels_of val else [])) items 0).
Qed.

Lemma null_free_entries (v : JSON) key val :
  null_free v = true → (key, val) ∈ Object_entries v → null_free val = true.
Proof.
  destruct v as [| | | |items|fields]; simpl; intros Hv Hin;
    try (by apply elem_of_nil in Hin).
  - apply elem_of_lookup_imap in Hin as (i & e & [= -> ->] & Hi).
    rewrite forallb_forall in Hv. apply Hv, list_elem_of_In.
    by eapply list_elem_of_lookup_2.
  - rewrite forallb_forall in Hv. by apply (Hv (key, val)), list_elem_of_In.
Qed.

Lemma value_label_code (v : JSON) : null_free v = true → node_label v = value_label v.
Proof. by destruct v. Qed.

Lemma entry_label_code key (val : JSON) :
  null_free val = true → childLabel key val = entry_label key val.
Proof. by destruct val. Qed.

Lemma traverse_labels (node : JSON) :
  null_free node = true →
  ∀ depth centerX parentId (b : Builder),
    label <$> newNodes (traverse node depth centerX parentId b)
    = (label <$> newNodes b) ++ labels_of node.
Proof.
  induction node as [node IH] using JSON_entries_ind.
  intros Hfree depth centerX parentId b. rewrite traverse_unfold, labels_of_unfold.
  assert (label <$> newNodes (visit_self node depth centerX parentId b).2
          = (label <$> newNodes b) ++ [value_label node]) as Hself.
  { unfold visit_self. simpl. rewrite <- (value_label_code node Hfree).
    destruct parentId as [p|]; simpl;
      [destruct (negb (String.eqb p "")); simpl|]; by rewrite fmap_app. }
  destruct (visit_self node depth centerX parentId b) as [[currentId yy] b1].
  simpl in Hself. rewrite has_entries_container.
  destruct (is_container node) eqn:Hc.
  - cbv zeta.
    rewrite (forEach_app (λ s, label <$> newNodes s)
      (λ kv, entry_label kv.1 kv.2
               :: (if is_container kv.2 then labels_of kv.2 else []))).
    + rewrite Hself, <- app_assoc. done.
    + intros [key val] j s Hin. unfold visit_entry. simpl.
      pose proof (null_free_entries node key val Hfree Hin) as Hval.
      rewrite has_entries_container. destruct (is_container val) eqn:Hv.
      * rewrite (IH key val Hin Hval). simpl. rewrite fmap_app. simpl.
        rewrite (entry_label_code key val Hval), <- app_assoc. done.
      * simpl. rewrite fmap_app. simpl. by rewrite (entry_label_code key val Hval).
  - rewrite Hself. destruct node; try discriminate Hc; done.
Qed.

(** X12. For a value without [null] the labels of the built nodes, in
    creation order, follow the label rule: "Array" or "Object" or the
    primitive's string form for a value's own node, the bare key or
    "key: value" for an entry node, each container entry followed by the
    labels of its container. *)
Theorem generateFlow_labels (v : JSON) (st : AppState) :
  null_free v = true → label <$> nodes (generateFlow v st) = labels_of v.
Proof.
  intros Hfree. unfold generateFlow. simpl. by rewrite traverse_labels.
Qed.

(** ** The build only appends *)

Lemma visit_self_nodes (node : JSON) depth centerX parentId (b : Builder) :
  newNodes (visit_self node depth centerX parentId b).2
  = newNodes b
    ++ [{| id := String_nat (counter b); label := node_label node;
           position := {| x := centerX; y := num_mul depth (num_of_nat 120) |};
           draggable := true; style := ValueStyle |}].
Proof.
  unfold visit_self. simpl. destruct parentId as [p|]; [|done].
  by destruct (negb (String.eqb p "")).
Qed.

Lemma traverse_nodes_prefix (node : JSON) :
  ∀ depth centerX parentId (b : Builder),
    newNodes b `prefix_of` newNodes (traverse node depth centerX parentId b).
Proof.
  induction node as [node IH] using JSON_entries_ind.
  intros depth centerX parentId b. rewrite traverse_unfold.
  pose proof (visit_self_nodes node depth centerX parentId b) as Hself.
  destruct (visit_self node depth centerX parentId b) as [[currentId yy] b1].
  simpl in Hself.
  assert (newNodes b `prefix_of` newNodes b1) as Hb1.
  { rewrite Hself. by apply prefix_app_r. }
  destruct (String.eqb (typeof node) "object" && negb (is_null node)); [|done].
  cbv zeta. apply (forEach_inv (λ s, newNodes b `prefix_of` newNodes s)); [|done].
  intros [key val] i s Hin Hs. unfold visit_entry. simpl.
  set (s' := push_relation _ _ _).
  assert (newNodes b `prefix_of` newNodes s') as Hs'.
  { simpl. by apply prefix_app_r. }
  destruct (String.eqb (typeof val) "object" && negb (is_null val)); [|done].
  etrans; [exact Hs'|]. by apply (IH key val Hin).
Qed.

Lemma traverse_keeps_nodes (node : JSON) depth centerX parentId (b : Builder) n :
  n ∈ newNodes b → n ∈ newNodes (traverse node depth centerX parentId b).
Proof.
  intros Hn.
  destruct (traverse_nodes_prefix node depth centerX parentId b) as [l ->].
  apply elem_of_app. by left.
Qed.

(** ** The earlier builder builds the same graph structure *)

Lemma each_array_forEach_state {St : Type} (f : string → JSON → nat → St → St) items :
  ∀ i (s : St),
  (fix each (l : list JSON) (i : nat) (s : St) : St :=
     match l with
     | [] => s
     | val :: rest => each rest (S i) (f (String_nat i) val i s)
     end) items i s
  = forEach (λ kv, f kv.1 kv.2) (imap (λ j e, (String_nat (i + j), e)) items) i s.
Proof.
  induction items as [|e items IH]; intros i s; [done|].
  simpl. rewrite Nat.add_0_r, IH. f_equal.
  apply imap_ext. intros j e' _. simpl. by rewrite Nat.add_succ_r.
Qed.

Lemma each_object_forEach_state {St : Type} (f : string → JSON → nat → St → St) fields :
  ∀ i (s : St),
  (fix each (l : list (string * JSON)) (i : nat) (s : St) : St :=
     match l with
     | [] => s
     | kv :: rest => each rest (S i) (f kv.1 kv.2 i s)
     end) fields i s
  = forEach (λ kv, f kv.1 kv.2) fields i s.
Proof.
  induction fields as [|kv fields IH]; intros i s; [done|]. simpl. by rewrite IH.
Qed.

Lemma legacy_traverse_unfold (obj : JSON) depth parentId parentY
    (b : Legacy.Builder num) :
  Legacy.traverse obj depth parentId parentY b =
    let '(currentId, yOffset, b1) := Legacy.visit_self obj depth parentId parentY b in
    if String.eqb (typeof obj) "object" && negb (is_null obj) then
      forEach (λ kv (_ : nat),
                 Legacy.visit_entry (Legacy.traverse kv.2) depth parentY yOffset
                   currentId kv.1 kv.2)
        (Object_entries obj) 0 b1
    else b1.
Proof.
  destruct obj; cbn [Legacy.traverse];
    (destruct (Legacy.visit_self _ depth parentId parentY b)
       as [[currentId yOffset] b1]); try done.
  - by rewrite (each_array_forEach_state (λ key val (_ : nat),
        Legacy.visit_entry (Legacy.traverse val) depth parentY yOffset
          currentId key val)).
  - by rewrite (each_object_forEach_state (λ key val (_ : nat),
        Legacy.visit_entry (Legacy.traverse val) depth parentY yOffset
          currentId key val)).
Qed.

Lemma forEach_related {A S1 S2 : Type} (R : S1 → S2 → Prop)
    (f1 : A → nat → S1 → S1) (f2 : A → nat → S2 → S2) l :
  (∀ a j s1 s2, a ∈ l → R s1 s2 → R (f1 a j s1) (f2 a j s2)) →
  ∀ i s1 s2, R s1 s2 → R (forEach f1 l i s1) (forEach f2 l i s2).
Proof.
  induction l as [|a l IH]; intros step i s1 s2 Hs; simpl; [done|].
  apply IH.
  - intros a' j' s1' s2' Ha'. apply step. by apply list_elem_of_further.
  - apply step; [apply list_elem_of_here|done].
Qed.

Lemma legacy_traverse_same (node : JSON) :
  ∀ depth depth' centerX parentY old_parent new_parent
    (old : Legacy.Builder num) (new : Builder),
    same_structure old new → same_parent old_parent new_parent →
    1 ≤ counter new →
    same_structure (Legacy.traverse node depth' old_parent parentY old)
                   (traverse node depth centerX new_parent new)
    ∧ counter new < counter (traverse node depth centerX new_parent new).
Proof.
  induction node as [node IH] using JSON_entries_ind.
  intros depth depth' centerX parentY old_parent new_parent old new
    (Hc & Hids & Hes) Hp Hpos.
  rewrite traverse_unfold, legacy_traverse_unfold.
  assert (same_structure (Legacy.visit_self node depth' old_parent parentY old).2
                         (visit_self node depth centerX new_parent new).2
          ∧ (Legacy.visit_self node depth' old_parent parentY old).1.1 = counter new
          ∧ (visit_self node depth centerX new_parent new).1.1
            = String_nat (counter new)
          ∧ counter (visit_self node depth centerX new_parent new).2
            = S (counter new)) as (Hself & Hcur_old & Hcur_new & Hcnt).
  { unfold Legacy.visit_self, visit_self, same_structure. simpl.
    destruct old_parent as [k|], new_parent as [p|]; simpl in Hp; try done.
    - destruct Hp as [Hk ->].
      destruct (String.eqb_spec (String_nat k) "") as [Hempty|_].
      { exfalso. by apply (String_nat_nonempty k). }
      destruct (Nat.eqb_spec k 0) as [->|_]; [lia|]. simpl.
      rewrite !fmap_app, Hc, Hids, Hes. done.
    - simpl. rewrite !fmap_app, Hc, Hids, Hes. done. }
  destruct (Legacy.visit_self node depth' old_parent parentY old)
    as [[cur_old yOffset] old1].
  destruct (visit_self node depth centerX new_parent new) as [[cur_new yy] new1].
  simpl in Hself, Hcur_old, Hcur_new, Hcnt. subst cur_old cur_new.
  destruct (String.eqb (typeof node) "object" && negb (is_null node));
    [|split; [done|lia]].
  cbv zeta.
  apply (forEach_related (λ s1 s2, same_structure s1 s2 ∧ counter new < counter s2));
    [|split; [done|lia]].
  intros [key val] i s1 s2 Hin [(Hc' & Hids' & Hes') Hlt].
  unfold Legacy.visit_entry, visit_entry. simpl.
  set (s1' := Legacy.push_edge _ _). set (s2' := push_relation _ _ _).
  assert (same_structure s1' s2' ∧ counter s2' = S (counter s2)) as [Hs' Hcs'].
  { unfold same_structure. simpl. by rewrite !fmap_app, Hc', Hids', Hes'. }
  destruct (String.eqb (typeof val) "object" && negb (is_null val));
    [|split; [done|lia]].
  rewrite Hc'.
  destruct (IH key val Hin (num_add depth (num_of_nat 2))
              (num_add depth' (num_of_nat 2))
              (num_add (startX_of centerX (length (Object_entries node)))
                 (num_mul (num_of_nat i) spacing))
              (num_add parentY
                 (num_add yOffset (num_mul (num_of_nat (counter s2)) (num_of_nat 60))))
              (Some (counter s2)) (Some (String_nat (counter s2))) s1' s2' Hs')
    as [Hr Hcr]; [split; [lia|done]|lia|].
  split; [done|lia].
Qed.

(** X14. The earlier builder and the current one build the same graph
    structure from every value: the same node ids in the same order, the
    same edges (id, source, target) and the same final counter. They
    differ in labels and positions only. *)
Theorem legacy_same_graph (v : JSON) (old : Legacy.AppState num) (st : AppState) :
  id <$> Legacy.nodes (Legacy.generateFlow v old) = id <$> nodes (generateFlow v st)
  ∧ Legacy.edges (Legacy.generateFlow v old) = edges (generateFlow v st)
  ∧ Legacy.idCounter (Legacy.generateFlow v old) = idCounter (generateFlow v st).
Proof.
  unfold Legacy.generateFlow, generateFlow. simpl.
  destruct (legacy_traverse_same v (num_of_nat 0) (num_of_nat 0) (num_of_nat 0)
              (num_of_nat 0) None None
              {| Legacy.counter := 1; Legacy.newNodes := []; Legacy.newEdges := [] |}
              {| counter := 1; newNodes := []; newEdges := []; relations := ∅ |})
    as [(Hc & Hids & Hes) _]; [done..|]. done.
Qed.

(** ** The nodes of a build, computed from the value *)

Lemma forEach_emit {A St B : Type} (m : St → list B) (c : St → nat)
    (w : A → nat → nat → list B) (f : A → nat → St → St) l :
  (∀ a j s, a ∈ l →
     m (f a j s) = m s ++ w a j (c s)
     ∧ c (f a j s) = c s + length (w a j (c s))) →
  ∀ i s, m (forEach f l i s) = m s ++ emit w l i (c s)
         ∧ c (forEach f l i s) = c s + length (emit w l i (c s)).
Proof.
  induction l as [|a l IH]; intros step i s; simpl.
  - rewrite app_nil_r. split; [done|lia].
  - destruct (step a i s) as [Hm Hc]; [apply list_elem_of_here|].
    destruct (IH (λ a' j' s' Ha', step a' j' s' (list_elem_of_further _ _ _ Ha'))
                 (S i) (f a i s)) as [Hm' Hc'].
    rewrite Hm', Hc', Hm, Hc, length_app, <- app_assoc. split; [done|lia].
Qed.

Lemma layout_each_array (W : string → JSON → nat → nat → list GraphNode) items :
  ∀ k next,
    (fix each (l : list JSON) (i next : nat) : list GraphNode :=
       match l with
       | [] => []
       | val :: rest =>
           W (String_nat i) val i next
           ++ each rest (S i) (next + length (W (String_nat i) val i next))
       end) items k next
    = emit (λ kv, W kv.1 kv.2) (imap (λ j e, (String_nat (k + j), e)) items) k next.
Proof.
  induction items as [|e items IH]; intros k next; [done|].
  simpl. rewrite Nat.add_0_r, IH. do 2 f_equal.
  apply imap_ext. intros j e' _. simpl. by rewrite Nat.add_succ_r.
Qed.

Lemma layout_each_object (W : string → JSON → nat → nat → list GraphNode) fields :
  ∀ k next,
    (fix each (l : list (string * JSON)) (i next : nat) : list GraphNode :=
       match l with
       | [] => []
       | kv :: rest =>
           W kv.1 kv.2 i next
           ++ each rest (S i) (next + length (W kv.1 kv.2 i next))
       end) fields k next
    = emit (λ kv, W kv.1 kv.2) fields k next.
Proof.
  induction fields as [|kv fields IH]; intros k next; [done|].
  simpl. by rewrite IH.
Qed.

Lemma layout_unfold (node : JSON) next depth centerX :
  layout node next depth centerX =
    value_node node next depth centerX ::
    emit (λ kv i n,
            entry_node kv.1 kv.2 i n depth
              (startX_of centerX (length (Object_entries node)))
            :: (if is_container kv.2
                then layout kv.2 (S n) (num_add depth (num_of_nat 2))
                       (num_add (startX_of centerX (length (Object_entries node)))
                          (num_mul (num_of_nat i) spacing))
                else []))
      (Object_entries node) 0 (S next).
Proof.
  destruct node as [| | | |items|fields]; try done; cbn [layout]; f_equal.
  - cbn [Object_entries]. rewrite length_imap.
    apply (layout_each_array
      (λ key val i n,
         entry_node key val i n depth (startX_of centerX (length items))
         :: (if is_container val
             then layout val (S n) (num_add depth (num_of_nat 2))
                    (num_add (startX_of centerX (length items))
                       (num_mul (num_of_nat i) spacing))
             else [])) items 0 (S next)).
  - apply (layout_each_object
      (λ key val i n,
         entry_node key val i n depth (startX_of centerX (length fields))
         :: (if is_container val
             then layout val (S n) (num_add depth (num_of_nat 2))
                    (num_add (startX_of centerX (length fields))
                       (num_mul (num_of_nat i) spacing))
             else [])) fields 0 (S next)).
Qed.

Lemma traverse_layout (node : JSON) :
  ∀ depth centerX parentId (b : Builder),
    newNodes (traverse node depth centerX parentId b)
    = newNodes b ++ layout node (counter b) depth centerX
    ∧ counter (traverse node depth centerX parentId b)
      = counter b + length (layout node (counter b) depth centerX).
Proof.
  induction node as [node IH] using JSON_entries_ind.
  intros depth centerX parentId b. rewrite traverse_unfold, layout_unfold.
  assert (newNodes (visit_self node depth centerX parentId b).2
          = newNodes b ++ [value_node node (counter b) depth centerX]
          ∧ counter (visit_self node depth centerX parentId b).2 = S (counter b)
          ∧ (visit_self node depth centerX parentId b).1
            = (String_nat (counter b), num_mul depth (num_of_nat 120)))
    as (Hnodes & Hcnt & Hcur).
  { unfold visit_self. simpl. destruct parentId as [p|]; [|done].
    by destruct (negb (String.eqb p "")). }
  destruct (visit_self node depth centerX parentId b) as [[currentId yy] b1].
  simpl in Hnodes, Hcnt, Hcur. injection Hcur as -> ->.
  rewrite has_entries_container. destruct (is_container node) eqn:Hc.
  - cbv zeta.
    set (startX := startX_of centerX (length (Object_entries node))).
    set (w := λ (kv : string * JSON) (i n : nat),
                entry_node kv.1 kv.2 i n depth startX
                :: (if is_container kv.2
                    then layout kv.2 (S n) (num_add depth (num_of_nat 2))
                           (num_add startX (num_mul (num_of_nat i) spacing))
                    else [])).
    set (f := λ kv : string * JSON,
                visit_entry (traverse kv.2) depth (num_mul depth (num_of_nat 120))
                  startX (String_nat (counter b)) kv.1 kv.2).
    destruct (forEach_emit (λ s : Builder, newNodes s) (λ s : Builder, counter s)
                w f (Object_entries node)) with (i := 0) (s := b1) as [Hm Hk];
      [|rewrite Hm, Hk, Hnodes, Hcnt, <- app_assoc; simpl; split; [done|lia]].
    intros [key val] j s Hin. unfold f, w, visit_entry, startX. simpl.
    rewrite has_entries_container. destruct (is_container val) eqn:Hv.
    + destruct (IH key val Hin (num_add depth (num_of_nat 2))
                  (num_add (startX_of centerX (length (Object_entries node)))
                     (num_mul (num_of_nat j) spacing))
                  (Some (String_nat (counter s)))
                  (push_relation (String_nat (counter b)) (String_nat (counter s))
                     (push_edge (mk_edge (String_nat (counter b)) (String_nat (counter s)))
                        (push_node
                           (entry_node key val j (counter s) depth
                              (startX_of centerX (length (Object_entries node))))
                           (nextId s).2)))) as [Hm' Hk'].
      simpl in Hm', Hk'. split.
      * etrans; [exact Hm'|]. by rewrite <- app_assoc.
      * etrans; [exact Hk'|]. lia.
    + simpl. split; [done|lia].
  - destruct node; try discriminate Hc; simpl; rewrite Hnodes, Hcnt; split; done || lia.
Qed.

(** X15. The nodes of a built graph are a function of the value alone:
    the pre-order [layout] with ids counted from 1, the root at
    [(0, 0 * 120)], each entry one row below its container at
    [startX + i * 220] and each nested container two rows below, centred
    at its entry. *)
Theorem generateFlow_layout (v : JSON) (st : AppState) :
  nodes (generateFlow v st) = layout v 1 (num_of_nat 0) (num_of_nat 0).
Proof.
  unfold generateFlow. simpl.
  by destruct (traverse_layout v (num_of_nat 0) (num_of_nat 0) None
                 {| counter := 1; newNodes := []; newEdges := []; relations := ∅ |})
    as [-> _].
Qed.

(** X16. A snapshot that survives a rebuild acts on the new graph. The
    ids restart at 1, so a drag-move for the stale root, when the old
    snapshot holds another id besides its root, puts every new node whose
    id is a key of the old snapshot at the old snapshot position plus the
    delta and leaves the other new nodes as built; when the old snapshot
    holds its root alone the drag-move changes nothing. *)
Theorem stale_snapshot_moves_new_nodes (v : JSON) (st : AppState) (r : string)
    (snapshot : gmap string Position) (startPos : Position) (moved : GraphNode) :
  dragSnapshot st !! r = Some snapshot →
  snapshot !! r = Some startPos →
  id moved = r →
  ∃ st2,
    onNodeDrag moved (generateFlow v st) = Ok st2
    ∧ ((∃ d, d ≠ r ∧ is_Some (snapshot !! d)) →
       ∀ i n, nodes (generateFlow v st) !! i = Some n →
         nodes st2 !! i
         = Some (match snapshot !! id n with
                 | Some p => set_position n (shifted p startPos (position moved))
                 | None => n
                 end))
    ∧ ((∀ d, is_Some (snapshot !! d) → d = r) → st2 = generateFlow v st).
Proof.
  intros Hsnap Hstart <-. unfold onNodeDrag.
  change (dragSnapshot (generateFlow v st)) with (dragSnapshot st).
  rewrite Hsnap, Hstart. fold (other_keys snapshot (id moved)).
  destruct (length (other_keys snapshot (id moved)) =? 0) eqn:Hlen.
  - exists (generateFlow v st). split; [done|]. split; [|done].
    intros (d & Hne & Hd).
    by rewrite (other_keys_some snapshot (id moved) d Hne Hd) in Hlen.
  - eexists. split; [done|]. split.
    + intros _ i n Hi. cbn [nodes]. by rewrite list_lookup_fmap, Hi.
    + intros Honly. by rewrite (other_keys_none snapshot (id moved) Honly) in Hlen.
Qed.

End DQT_theory.

Example built_nodes :
  (λ n, (id n, label n, position n)) <$> nodes built
  = [("1", "Object", pos 0 0); ("2", "a: 1", pos (-110) 120);
     ("3", "b", pos 110 120); ("4", "Object", pos 110 240);
     ("5", "c: 2", pos 110 360)].
Proof. reflexivity. Qed.

Example built_edges :
  edges built = [mk_edge "1" "2"; mk_edge "1" "3"; mk_edge "3" "4"; mk_edge "4" "5"].
Proof. reflexivity. Qed.

Example built_index :
  parentMap built = {[ "1" := ["2"; "3"]; "3" := ["4"]; "4" := ["5"] ]}.
Proof. vm_compute. reflexivity. Qed.

Example empty_array_build :
  nodes (generateFlow (JArray []) initial)
  = [{| id := "1"; label := "Array"; position := pos 0 0; draggable := true;
        style := ValueStyle |}]
  ∧ edges (generateFlow (JArray []) initial) = []
  ∧ parentMap (generateFlow (JArray []) initial) = ∅.
Proof. repeat split; vm_compute; reflexivity. Qed.

Example dragStart_b :
  onNodeDragStart 2 (renderer_node "4" 110 240) built = Some dragging_b.
Proof. vm_compute. reflexivity. Qed.

Example dragStart_a :
  onNodeDragStart 0 (renderer_node "2" (-110) 120) built = Some dragging_a.
Proof. vm_compute. reflexivity. Qed.

Lemma dragging_b_wf : wf_store (dragSnapshot dragging_b).
Proof.
  eapply onNodeDragStart_wf; [|exact dragStart_b]. apply wf_store_empty.
Qed.

(** The spec's example: dragging the container under [b] by (50, 30). *)
Example drag_b_by_50_30 :
  (λ st, (λ n, (id n, position n)) <$> nodes st)
    <$> (match onNodeDrag (renderer_node "4" 160 270) dragging_b with
         | Ok st => Some st
         | Throw _ => None
         end)
  = Some [("1", pos 0 0); ("2", pos (-110) 120); ("3", pos 110 120);
          ("4", pos 160 270); ("5", pos 160 390)].
Proof. vm_compute. reflexivity. Qed.

Example drag_b_result :
  onNodeDrag (renderer_node "4" 160 270) dragging_b = Ok moved_b.
Proof. vm_compute. reflexivity. Qed.

(** The state with a descendant missing from the live nodes is reachable:
    mount, build in "visualize" mode, then the renderer drops node 5. *)
Example without_c_reachable : reachable without_c.
Proof.
  eapply reachable_step; [eapply reachable_step; [apply reachable_mount|]|].
  - apply (step_effect (Parsed spec_example) visualize).
  - apply (step_nodes (filter (λ n, id n ≠ "5") (nodes built))).
Qed.

(** *** The node count on the spec's example *)

(** C2 as stated fails on [{"a": 1, "b": {"c": 2}}]: five nodes are built,
    while 1 plus the number of entries met (two at the root, one in the
    nested object) is four. *)
Lemma node_count_counterexample :
  length (nodes (generateFlow spec_example initial)) = 5
  ∧ 1 + entries_encountered spec_example = 4
  ∧ length (nodes (generateFlow spec_example initial))
    ≠ 1 + entries_encountered spec_example.
Proof. repeat split. vm_compute. discriminate. Qed.

(** *** A rebuild during a drag *)

Example dragging_b_ids_live : snapshot_ids_live dragging_b.
Proof.
  intros r snapshot d Hr Hd. simpl in Hr.
  apply lookup_singleton_Some in Hr as [<- <-].
  destruct (decide (d = "4")) as [->|H4]; [by apply list_elem_of_In; vm_compute; tauto|].
  destruct (decide (d = "5")) as [->|H5]; [by apply list_elem_of_In; vm_compute; tauto|].
  unfold snapshot_b in Hd.
  rewrite lookup_insert_ne, lookup_singleton_ne in Hd by done.
  by destruct Hd.
Qed.

(** C5 as stated fails: rebuilding from [[]] while id 4 is dragged leaves
    the snapshot of id 4 in the store, and its ids 4 and 5 are not ids of
    the one node of the new graph. *)
Lemma rebuild_counterexample :
  ¬ snapshot_ids_live (generateFlow (JArray []) dragging_b).
Proof.
  intros Hlive.
  specialize (Hlive "4" snapshot_b "5").
  assert ("5" ∈ id <$> nodes (generateFlow (JArray []) dragging_b)) as Hin.
  { apply Hlive; [by vm_compute|]. exists (pos 110 360). by vm_compute. }
  apply list_elem_of_In in Hin. vm_compute in Hin. by destruct Hin.
Qed.

(** *** Witnesses *)


Lemma onNodeDrag_frame_witness :
  length (nodes moved_b) = length (nodes dragging_b)
  ∧ (∀ i n, nodes dragging_b !! i = Some n → snapshot_b !! id n = None →
            nodes moved_b !! i = Some n)
  ∧ ((∀ d, is_Some (snapshot_b !! d) → d = "4") →
     nodes moved_b = nodes dragging_b).
Proof.
  apply (onNodeDrag_frame (renderer_node "4" 160 270) dragging_b moved_b snapshot_b).
  - by vm_compute.
  - by vm_compute.
Defined.

Lemma onNodeDrag_without_snapshot_witness :
  onNodeDrag (renderer_node "3" 500 500) dragging_b = Ok dragging_b.
Proof.
  apply (onNodeDrag_without_snapshot (renderer_node "3" 500 500) dragging_b).
  by vm_compute.
Defined.

(** Drag-start of id 4 after node 5 left the live set: the loop finishes
    and id 5 is recorded 40 below the dragged node. *)
Example dragStart_without_c :
  (λ st, dragSnapshot st !! "4")
    <$> onNodeDragStart 2 (renderer_node "4" 110 240) without_c
  = Some (Some {[ "4" := pos 110 240; "5" := pos 110 280 ]}).
Proof. vm_compute. reflexivity. Qed.

Lemma onNodeDragStart_fallback_witness :
  ∃ fuel st' snapshot,
    (∀ fuel', fuel ≤ fuel' →
       onNodeDragStart fuel' (renderer_node "4" 110 240) without_c = Some st')
    ∧ dragSnapshot st' !! "4" = Some snapshot
    ∧ ∀ d, tc (in_index (parentMap without_c)) "4" d →
           (∀ n, n ∈ nodes without_c → id n ≠ d) →
           snapshot !! d = Some {| x := 110%Z; y := num_add 240%Z (num_of_nat 40) |}.
Proof.
  apply (onNodeDragStart_fallback (renderer_node "4" 110 240) without_c).
  apply (generateFlow_acyclic spec_example initial).
Defined.

(** *** Rows of the layout *)

Lemma rows_ok_link (b : Builder Z) (ns nt : GraphNode Z) :
  rows_ok b → ns ∈ newNodes b → one_row_down ns nt →
  rows_ok (push_relation (id ns) (id nt)
             (push_edge (mk_edge (id ns) (id nt)) (push_node nt b))).
Proof.
  intros Hb Hns Hrow e. simpl.
  intros [He| ->%list_elem_of_singleton]%elem_of_app.
  - destruct (Hb e He) as (ns' & nt' & Hns' & Hnt' & Hrest).
    exists ns', nt'. rewrite !elem_of_app. tauto.
  - exists ns, nt. rewrite !elem_of_app, !list_elem_of_singleton. simpl. tauto.
Qed.

Lemma rows_ok_node (b : Builder Z) (n : GraphNode Z) :
  rows_ok b → rows_ok (push_node n b).
Proof.
  intros Hb e He. destruct (Hb e He) as (ns & nt & Hns & Hnt & Hrest).
  exists ns, nt. simpl. rewrite !elem_of_app. tauto.
Qed.

Lemma traverse_rows (node : JSON Z) :
  ∀ depth centerX parentId (b : Builder Z),
    rows_ok b → key_node_above parentId depth centerX b →
    rows_ok (traverse node depth centerX parentId b).
Proof.
  induction node as [node IH] using JSON_entries_ind.
  intros depth centerX parentId b Hb Hp. rewrite traverse_unfold.
  set (cur := {| id := String_nat (counter b); label := node_label node;
                 position := {| x := centerX; y := (depth * 120)%Z |};
                 draggable := true; style := ValueStyle |}).
  assert (rows_ok (visit_self node depth centerX parentId b).2
          ∧ cur ∈ newNodes (visit_self node depth centerX parentId b).2
          ∧ (visit_self node depth centerX parentId b).1
            = (String_nat (counter b), (depth * 120)%Z)) as (Hb1 & Hcur & Hid).
  { rewrite visit_self_nodes. split; [|split].
    - unfold visit_self. simpl. fold cur.
      destruct parentId as [p|]; [|by apply rows_ok_node].
      destruct (negb (String.eqb p "")); [|by apply rows_ok_node].
      destruct Hp as (np & Hnp & <- & Hstyle & Hx & Hy).
      apply (rows_ok_link (nextId b).2 np cur); [done..|].
      unfold one_row_down. simpl. rewrite Hstyle. split; [lia|]. split; done.
    - apply elem_of_app. right. by apply list_elem_of_singleton.
    - unfold visit_self. simpl. destruct parentId as [p|]; [|done].
      by destruct (negb (String.eqb p "")). }
  destruct (visit_self node depth centerX parentId b) as [[currentId yy] b1].
  simpl in Hb1, Hcur, Hid. injection Hid as -> ->.
  destruct (String.eqb (typeof node) "object" && negb (is_null node)); [|done].
  cbv zeta. apply (forEach_inv (λ s, rows_ok s ∧ cur ∈ newNodes s)); [|done].
  intros [key val] i s Hin [Hs Hcurs]. unfold visit_entry. simpl.
  set (childX := (startX_of centerX (length (Object_entries node))
                  + Z.of_nat i * spacing)%Z).
  set (child := {| id := String_nat (counter s); label := childLabel key val;
                   position := {| x := childX; y := (depth * 120 + 120)%Z |};
                   draggable := true; style := EntryStyle |}).
  set (s' := push_relation _ _ _).
  assert (rows_ok s' ∧ cur ∈ newNodes s' ∧ child ∈ newNodes s')
    as (Hs' & Hcurs' & Hchild).
  { split; [|split].
    - apply (rows_ok_link (nextId s).2 cur child); [done..|].
      unfold one_row_down. simpl. split; [lia|]. split; done.
    - simpl. apply elem_of_app. by left.
    - simpl. apply elem_of_app. right. by apply list_elem_of_singleton. }
  destruct (String.eqb (typeof val) "object" && negb (is_null val)); [|done].
  split; [|by apply traverse_keeps_nodes].
  apply (IH key val Hin); [done|].
  exists child. simpl. split; [done|]. repeat split. lia.
Qed.

(** X13. Rows of the layout, on integer coordinates. Every edge of a
    built graph joins two of its nodes, goes down exactly one row (120),
    and joins nodes of the two different kinds; an edge into a value node
    comes from the entry node straight above it (same x). *)
Theorem generateFlow_rows (v : JSON Z) (st : AppState Z) (e : GraphEdge) :
  e ∈ edges (generateFlow v st) →
  ∃ ns nt,
    ns ∈ nodes (generateFlow v st) ∧ nt ∈ nodes (generateFlow v st)
    ∧ id ns = source e ∧ id nt = target e
    ∧ y (position nt) = (y (position ns) + 120)%Z
    ∧ style ns ≠ style nt
    ∧ (style nt = ValueStyle → x (position nt) = x (position ns)).
Proof.
  intros He. unfold generateFlow in *. simpl in *.
  apply (traverse_rows v 0%Z 0%Z None
           {| counter := 1; newNodes := []; newEdges := []; relations := ∅ |});
    [|done|done].
  intros e' He'. by apply elem_of_nil in He'.
Qed.

(** *** Further witnesses *)

Lemma generateFlow_edges_between_nodes_witness :
  source (mk_edge "3" "4") ∈ id <$> nodes (generateFlow spec_example initial)
  ∧ target (mk_edge "3" "4") ∈ id <$> nodes (generateFlow spec_example initial)
  ∧ id_number (source (mk_edge "3" "4")) < id_number (target (mk_edge "3" "4"))
  ∧ edge_id (mk_edge "3" "4")
    = "e" +:+ source (mk_edge "3" "4") +:+ "-" +:+ target (mk_edge "3" "4").
Proof.
  apply (generateFlow_edges_between_nodes spec_example initial (mk_edge "3" "4")).
  apply list_elem_of_In. vm_compute. tauto.
Defined.

Lemma onNodeDragStart_snapshot_witness :
  ∃ snapshot,
    dragging_b
    = {| idCounter := idCounter built; nodes := nodes built; edges := edges built;
         parentMap := parentMap built;
         dragSnapshot := <["4" := snapshot]> (dragSnapshot built) |}
    ∧ (∀ d, is_Some (snapshot !! d) ↔
            d = "4" ∨ tc (in_index (parentMap built)) "4" d)
    ∧ (¬ tc (in_index (parentMap built)) "4" "4" →
       snapshot !! "4" = Some (pos 110 240))
    ∧ (NoDup (id <$> nodes built) →
       ∀ n, n ∈ nodes built → tc (in_index (parentMap built)) "4" (id n) →
            snapshot !! id n = Some (position n)).
Proof.
  apply (onNodeDragStart_snapshot 2 (renderer_node "4" 110 240) built dragging_b).
  exact dragStart_b.
Defined.

Lemma dragStart_dragStop_witness :
  onNodeDragStop (renderer_node "4" 110 240) dragging_b = built.
Proof.
  apply (dragStart_dragStop 2 (renderer_node "4" 110 240) built dragging_b).
  - by vm_compute.
  - exact dragStart_b.
Defined.

Lemma dragMoves_only_positions_witness :
  idCounter moved_b = idCounter dragging_b ∧ edges moved_b = edges dragging_b
  ∧ parentMap moved_b = parentMap dragging_b
  ∧ dragSnapshot moved_b = dragSnapshot dragging_b
  ∧ Forall2 same_but_position (nodes dragging_b) (nodes moved_b).
Proof.
  apply (dragMoves_only_positions
           [renderer_node "4" 120 250; renderer_node "4" 160 270] dragging_b moved_b).
  by vm_compute.
Defined.


Lemma reachable_handlers_complete_witness :
  wf_store (dragSnapshot without_c)
  ∧ index_acyclic (parentMap without_c)
  ∧ (∃ st', onNodeDrag (renderer_node "4" 160 270) without_c = Ok st')
  ∧ (∃ fuel st', ∀ fuel', fuel ≤ fuel' →
       onNodeDragStart fuel' (renderer_node "4" 160 270) without_c = Some st').
Proof.
  apply (reachable_handlers_complete (renderer_node "4" 160 270) without_c).
  exact without_c_reachable.
Defined.

Lemma generateFlow_labels_witness :
  label <$> nodes (generateFlow spec_example initial) = labels_of spec_example.
Proof.
  apply (generateFlow_labels spec_example initial). reflexivity.
Defined.

Lemma generateFlow_rows_witness :
  ∃ ns nt,
    ns ∈ nodes (generateFlow spec_example initial)
    ∧ nt ∈ nodes (generateFlow spec_example initial)
    ∧ id ns = source (mk_edge "3" "4") ∧ id nt = target (mk_edge "3" "4")
    ∧ y (position nt) = (y (position ns) + 120)%Z
    ∧ style ns ≠ style nt
    ∧ (style nt = ValueStyle → x (position nt) = x (position ns)).
Proof.
  apply (generateFlow_rows spec_example initial (mk_edge "3" "4")).
  apply list_elem_of_In. vm_compute. tauto.
Defined.

Lemma stale_snapshot_moves_new_nodes_witness :
  ∃ st2,
    onNodeDrag (renderer_node "4" 160 270)
      (generateFlow (JArray [JNumber 7%Z; JNumber 8%Z; JNumber 9%Z]) dragging_b)
    = Ok st2
    ∧ ((∃ d, d ≠ "4" ∧ is_Some (snapshot_b !! d)) →
       ∀ i n,
         nodes (generateFlow (JArray [JNumber 7%Z; JNumber 8%Z; JNumber 9%Z]) dragging_b)
           !! i = Some n →
         nodes st2 !! i
         = Some (match snapshot_b !! id n with
                 | Some p => set_position n (shifted p (pos 110 240) (pos 160 270))
                 | None => n
                 end))
    ∧ ((∀ d, is_Some (snapshot_b !! d) → d = "4") →
       st2 = generateFlow (JArray [JNumber 7%Z; JNumber 8%Z; JNumber 9%Z]) dragging_b).
Proof.
  apply (stale_snapshot_moves_new_nodes
           (JArray [JNumber 7%Z; JNumber 8%Z; JNumber 9%Z]) dragging_b "4"
           snapshot_b (pos 110 240) (renderer_node "4" 160 270)).
  - by vm_compute.
  - by vm_compute.
  - reflexivity.
Defined.

(** A stale drag on the rebuilt graph: the entries [2: 9] (id 4) of the
    new array jumps to the old snapshot position plus the delta. *)
Example stale_drag_run :
  (λ st, (λ n, (id n, label n, position n)) <$> nodes st)
    <$> (match onNodeDrag (renderer_node "4" 160 270)
                 (generateFlow (JArray [JNumber 7%Z; JNumber 8%Z; JNumber 9%Z])
                    dragging_b) with
         | Ok st => Some st
         | Throw _ => None
         end)
  = Some [("1", "Array", pos 0 0); ("2", "0: 7", pos (-220) 120);
          ("3", "1: 8", pos 0 120); ("4", "2: 9", pos 160 270)].
Proof. vm_compute. reflexivity. Qed.
